(** * xds-exec: the remote execution session of [main.go]

    A shallow embedding of [main.go] (package [main] of xds-exec): the
    argument split of [main], the flag table of [app.Flags], and
    [app.Action] with its event callbacks, followed by the properties of
    the specification that were checked against them.

    Go strings are byte strings and are modelled by [string]; Go [int]
    is modelled by [Z]; a Go [error] is [option string] ([None] is
    [nil], [Some m] an error whose [Error()] is [m]); a Go map is a
    [gmap].

    [main.go] is the whole program; what it imports is not part of it.
    The calls into Go's [strings] and [path/filepath] are modelled by
    the library's algorithms.  The agent, the file system and the
    process environment are inputs ([Agent], [FileSys], a [gmap]); the
    packages godotenv, urfave/cli, logrus and encoding/json are modelled
    by what they document, each at the place where [main.go] calls it. *)

From Stdlib Require Import ZArith Ascii String.
From stdpp Require Import base tactics option list strings gmap relations.

Local Open Scope string_scope.
Local Open Scope list_scope.

(** ** The functions of Go's [strings] and [path/filepath] that [main.go] calls

    These are the library's algorithms on byte strings.  Where the
    library works on UTF-8 runes ([Trim]'s cutset, the empty separator
    of [genSplit]) the model works on bytes, which is the same thing for
    the ASCII cutsets and the non-empty separators [main.go] passes. *)
Module GoStrings.

(** [s[n:]] *)
Fixpoint strFrom (n : nat) (s : string) : string :=
  match n, s with
  | 0, _ => s
  | S n', String _ s' => strFrom n' s'
  | S _, EmptyString => EmptyString
  end.

(** [s[:n]] *)
Fixpoint strTo (n : nat) (s : string) : string :=
  match n, s with
  | 0, _ => EmptyString
  | S n', String c s' => String c (strTo n' s')
  | S _, EmptyString => EmptyString
  end.

(** [strings.HasPrefix(s, prefix)] *)
Fixpoint HasPrefix (s prefix : string) {struct prefix} : bool :=
  match prefix, s with
  | EmptyString, _ => true
  | String c p', String d s' => if Ascii.eqb c d then HasPrefix s' p' else false
  | String _ _, EmptyString => false
  end.

(** [strings.Index(s, sep)]: the offset of the first instance of [sep]
    in [s]; Go's [-1] is [None]. *)
Fixpoint Index (s sep : string) : option nat :=
  if HasPrefix s sep then Some 0
  else match s with
       | EmptyString => None
       | String _ s' => S <$> Index s' sep
       end.

(** [strings.LastIndex(s, sep)] *)
Fixpoint LastIndex (s sep : string) : option nat :=
  match s with
  | EmptyString => if HasPrefix s sep then Some 0 else None
  | String _ s' =>
      match LastIndex s' sep with
      | Some i => Some (S i)
      | None => if HasPrefix s sep then Some 0 else None
      end
  end.

(** The loop of [strings.Count] for a non-empty [sep]:
    [for { i := Index(s, sep); if i == -1 { return n }; n++; s = s[i+len(sep):] }].
    Every round removes at least one byte of [s], so [String.length s]
    rounds are enough (lemma [count_loop_enough]). *)
Fixpoint count_loop (rounds : nat) (s sep : string) : nat :=
  match rounds with
  | 0 => 0
  | S rounds' =>
      match Index s sep with
      | None => 0
      | Some i => S (count_loop rounds' (strFrom (i + String.length sep) s) sep)
      end
  end.

(** [strings.Count(s, sep)]: the number of non-overlapping instances. *)
Definition Count (s sep : string) : nat :=
  match sep with
  | EmptyString => S (String.length s)
  | _ => count_loop (String.length s) s sep
  end.

(** [explode]: one string per character. *)
Fixpoint explode (s : string) : list string :=
  match s with
  | EmptyString => []
  | String c s' => String c EmptyString :: explode s'
  end.

(** The loop of [genSplit]: [n] is the bound [Count(s, sep)] the Go
    code computes for its result array. *)
Fixpoint genSplit_loop (n : nat) (s sep : string) (sepSave : nat) : list string :=
  match n with
  | 0 => [s]
  | S n' =>
      match Index s sep with
      | None => [s]
      | Some m =>
          strTo (m + sepSave) s
            :: genSplit_loop n' (strFrom (m + String.length sep) s) sep sepSave
      end
  end.

(** [genSplit(s, sep, sepSave, -1)] *)
Definition genSplit (s sep : string) (sepSave : nat) : list string :=
  match sep with
  | EmptyString => explode s
  | _ => genSplit_loop (Count s sep) s sep sepSave
  end.

(** [strings.SplitAfter(s, sep)] *)
Definition SplitAfter (s sep : string) : list string :=
  genSplit s sep (String.length sep).

Fixpoint inCutset (cutset : string) (c : ascii) : bool :=
  match cutset with
  | EmptyString => false
  | String d cutset' => if Ascii.eqb c d then true else inCutset cutset' c
  end.

Fixpoint TrimLeft (s cutset : string) : string :=
  match s with
  | EmptyString => EmptyString
  | String c s' => if inCutset cutset c then TrimLeft s' cutset else s
  end.

Fixpoint TrimRight (s cutset : string) : string :=
  match s with
  | EmptyString => EmptyString
  | String c s' =>
      match TrimRight s' cutset with
      | EmptyString => if inCutset cutset c then EmptyString else String c EmptyString
      | r => String c r
      end
  end.

(** [strings.Trim(s, cutset)] *)
Definition Trim (s cutset : string) : string :=
  TrimRight (TrimLeft s cutset) cutset.

(** The text after the last ['/'] of [s], [None] when [s] has none. *)
Fixpoint afterLastSlash (s : string) : option string :=
  match s with
  | EmptyString => None
  | String c s' =>
      match afterLastSlash s' with
      | Some r => Some r
      | None => if Ascii.eqb c "/" then Some s' else None
      end
  end.

(** [filepath.Base(path)] on a Unix host: trailing separators are
    removed, then the last element is returned; ["."] for the empty
    path and ["/"] for a path of separators only. *)
Definition Base (path : string) : string :=
  match path with
  | EmptyString => "."
  | _ =>
      match TrimRight path "/" with
      | EmptyString => "/"
      | p => match afterLastSlash p with
             | Some r => r
             | None => p
             end
      end
  end.

(** [strings.ToLower(s)] on ASCII letters. *)
Definition lowerByte (c : ascii) : ascii :=
  let n := nat_of_ascii c in
  if (65 <=? n)%nat && (n <=? 90)%nat then ascii_of_nat (n + 32) else c.

Fixpoint ToLower (s : string) : string :=
  match s with
  | EmptyString => EmptyString
  | String c s' => String (lowerByte c) (ToLower s')
  end.

End GoStrings.
Import GoStrings.


(** ** Constants and characters *)

Definition AppName : string := "xds-exec".
Definition AppNativeName : string := "exec".
Definition defaultLogLevel : string := "error".

Definition nl : string := String (ascii_of_nat 10) EmptyString.
Definition tab : string := String (ascii_of_nat 9) EmptyString.
Definition dq : string := String (ascii_of_nat 34) EmptyString.

(** ** The structures of [xaapiv1] that [main.go] reads and writes *)

Module ProjectConfig.
Record t := { ID : string; Label : string; ClientPath : string; DefaultSdk : string }.
End ProjectConfig.

Module SDK.
Record t := { ID : string; Name : string }.
End SDK.

(** The body of [POST /exec]. *)
Module ExecArgs.
Record t := {
  ID : string;
  SdkID : string;
  Cmd : string;
  Args : list string;
  Env : list string;
  RPath : string;
  CmdTimeout : Z
}.
End ExecArgs.

(** ** What the process does and how it stops

    Every call to the agent and every write of [fmt] to a standard
    stream is recorded, in program order; the lines of the logger are
    not. *)

Inductive Effect :=
| NewHTTPClient (baseURL : string)          (* common.HTTPNewClient(baseURL, conf) *)
| Get (url : string)                        (* c.HTTPGet(url, &data) *)
| NewIOClient (baseURL sid : string)        (* socketio_client.NewClient(baseURL, opts) *)
| Post (url : string) (body : ExecArgs.t)   (* c.HTTPPost(url, body) *)
| Stdout (s : string)
| Stderr (s : string).

(** How [main] stops: [os.Exit(code)] after [exitError(code, f)], the
    [cli.NewExitError(message, code)] the action returns, or a Go
    run-time panic. *)
Inductive Stop :=
| ExitError (message : string) (code : Z)
| Panic (what : string).

(** A computation that records effects and either stops or yields a value. *)
Definition Act (A : Type) : Type := list Effect * (Stop + A).

#[global] Instance act_ret : MRet Act := fun A a => ([], inr a).
#[global] Instance act_bind : MBind Act := fun A B f m =>
  match m with
  | (t, inl e) => (t, inl e)
  | (t, inr a) => let '(t', r) := f a in (t ++ t', r)
  end.
Definition call (e : Effect) : Act unit := ([e], inr tt).
Definition stop {A} (e : Stop) : Act A := ([], inl e).

Definition effects {A} (m : Act A) : list Effect := m.1.
Definition outcome {A} (m : Act A) : Stop + A := m.2.

(** [exitError(code, f)]: the text and a newline go to the standard
    error stream, then [os.Exit(code)].  Every call in [main.go] passes
    a format and no arguments, so the text is [f] itself (a [%] in it,
    possible through a config file name, would be read by [fmt] as a
    verb; that is not modelled). *)
Definition exitError {A} (code : Z) (f : string) : Act A :=
  call (Stderr (f +:+ nl));; stop (ExitError f code).

(** ** The variables of [main]

    The flag destinations of line 77-78 and the slices and map of lines
    188-199; the closure [app.Action] reads them. *)
Record Vars := {
  uri : string;
  prjID : string;
  rPath : string;
  logLevel : string;
  sdkid : string;
  confFile : string;
  withTimestamp : bool;
  listProject : bool;
  args : list string;
  argsCommand : list string;
  envMap : gmap string string
}.

Definition set_confFile (x : string) (v : Vars) : Vars :=
  {| uri := uri v; prjID := prjID v; rPath := rPath v; logLevel := logLevel v;
     sdkid := sdkid v; confFile := x; withTimestamp := withTimestamp v;
     listProject := listProject v; args := args v; argsCommand := argsCommand v;
     envMap := envMap v |}.
Definition set_envMap (x : gmap string string) (v : Vars) : Vars :=
  {| uri := uri v; prjID := prjID v; rPath := rPath v; logLevel := logLevel v;
     sdkid := sdkid v; confFile := confFile v; withTimestamp := withTimestamp v;
     listProject := listProject v; args := args v; argsCommand := argsCommand v;
     envMap := x |}.
Definition set_args (x : list string) (v : Vars) : Vars :=
  {| uri := uri v; prjID := prjID v; rPath := rPath v; logLevel := logLevel v;
     sdkid := sdkid v; confFile := confFile v; withTimestamp := withTimestamp v;
     listProject := listProject v; args := x; argsCommand := argsCommand v;
     envMap := envMap v |}.
Definition set_argsCommand (x : list string) (v : Vars) : Vars :=
  {| uri := uri v; prjID := prjID v; rPath := rPath v; logLevel := logLevel v;
     sdkid := sdkid v; confFile := confFile v; withTimestamp := withTimestamp v;
     listProject := listProject v; args := args v; argsCommand := x;
     envMap := envMap v |}.

(** ** [main]: the split of [os.Args] (lines 188-234) *)

(** [make([]string, n)] *)
Definition make (n : nat) : list string := replicate n EmptyString.

(** [copy(dst, src)]: the first [min(len(dst), len(src))] elements of
    [dst] are overwritten, the rest of [dst] stays. *)
Definition copy (dst src : list string) : list string :=
  firstn (length dst) src ++ skipn (length src) dst.

(** The files [main] looks at: [exists(path)], and the key/value pairs
    godotenv reads from a file ([None] when it returns an error). *)
Record FileSys := {
  fileExists : string -> bool;
  dotenv : string -> option (gmap string string)
}.

(** The state of the scan: the variables of [main] and the process
    environment, which [godotenv.Overload] changes. *)
Definition Scan : Type := Vars * gmap string string.

(** Lines 202-219: a ["-c"] or ["--config"] token sources the file
    named by the next token.  [godotenv.Overload] sets every variable of
    the file in the process environment, over the value it had;
    [godotenv.Read] returns the pairs of the file. *)
Definition sourceConfig (fs : FileSys) (osArgs : list string) (idx : nat)
    (st : Scan) : Act Scan :=
  let '(v, environ) := st in
  match osArgs !! (idx + 2)%nat with
  | None => stop (Panic "index out of range")
  | Some f =>
      let v := set_confFile f v in
      if String.eqb f EmptyString then mret (v, environ)
      else if negb (fileExists fs f) then
        exitError 1 "Error env config file not found"
      else
        match dotenv fs f with
        | None => exitError 1 ("Error loading env config file " +:+ f)
        | Some loaded =>
            let environ := loaded ∪ environ in
            match dotenv fs f with
            | None => exitError 1 ("Error reading env config file " +:+ f)
            | Some read => mret (set_envMap read v, environ)
            end
        end
  end.

(** The loop [for idx, a := range os.Args[1:]] from index [idx] on,
    [rest] being [os.Args[idx+1:]], and the [if !found] after it. *)
Fixpoint scanArgs (fs : FileSys) (osArgs : list string) (idx : nat)
    (rest : list string) (st : Scan) : Act Scan :=
  match rest with
  | [] => mret (set_args (copy (args st.1) osArgs) st.1, st.2)
  | a :: rest' =>
      st ← (if String.eqb a "-c" || String.eqb a "--config"
            then sourceConfig fs osArgs idx st else mret st);
      if String.eqb a "--" then
        let v := set_args (copy (args st.1) (firstn (idx + 1) osArgs)) st.1 in
        let v := set_argsCommand (copy (argsCommand v) (skipn (idx + 2) osArgs)) v in
        mret (v, st.2)
      else scanArgs fs osArgs (S idx) rest' st
  end.

(** Lines 77-78 and 188-190: the zero values of the flag variables and
    the two slices of [len(os.Args)] empty strings. *)
Definition initVars (osArgs : list string) (arg0 : string) : Vars :=
  {| uri := EmptyString; prjID := EmptyString; rPath := EmptyString;
     logLevel := EmptyString; sdkid := EmptyString; confFile := EmptyString;
     withTimestamp := false; listProject := false;
     args := <[0%nat := arg0]> (make (length osArgs));
     argsCommand := make (length osArgs);
     envMap := ∅ |}.

(** Lines 188-234 of [main]. *)
Definition splitArgs (fs : FileSys) (osArgs : list string)
    (environ : gmap string string) : Act Scan :=
  match osArgs with
  | [] => stop (Panic "index out of range")
  | arg0 :: tail =>
      let v := initVars osArgs arg0 in
      let exeName := Base arg0 in
      if negb (String.eqb exeName AppNativeName) then
        scanArgs fs osArgs 0 tail (v, environ)
      else
        mret (set_argsCommand (copy (argsCommand v) osArgs) v, environ)
  end.

(** ** [app.Flags] (lines 114-164) and how urfave/cli fills the destinations *)

Record StringFlag := { Name : string; EnvVar : string; Value : string }.

Definition flag_id : StringFlag :=
  {| Name := "id"; EnvVar := "XDS_PROJECT_ID"; Value := EmptyString |}.
Definition flag_config : StringFlag :=
  {| Name := "config, c"; EnvVar := "XDS_CONFIG"; Value := EmptyString |}.
Definition flag_log : StringFlag :=
  {| Name := "log, l"; EnvVar := "XDS_LOGLEVEL"; Value := defaultLogLevel |}.
Definition flag_rpath : StringFlag :=
  {| Name := "rpath"; EnvVar := "XDS_RPATH"; Value := EmptyString |}.
Definition flag_sdkid : StringFlag :=
  {| Name := "sdkid"; EnvVar := "XDS_SDK_ID"; Value := EmptyString |}.
Definition flag_url : StringFlag :=
  {| Name := "url"; EnvVar := "XDS_AGENT_URL"; Value := "localhost:8000" |}.

Record BoolFlag := { BoolName : string; BoolEnvVar : string }.

Definition flag_list : BoolFlag :=
  {| BoolName := "list, ls"; BoolEnvVar := EmptyString |}.
Definition flag_timestamp : BoolFlag :=
  {| BoolName := "timestamp, ts"; BoolEnvVar := "XDS_TIMESTAMP" |}.

(** What urfave/cli found on the command line [args] it was run with:
    for a string flag the value given, if the flag occurs; for the two
    boolean flags ([list], and [timestamp] with its variable
    [XDS_TIMESTAMP]) the value the library delivers. *)
Record CmdLine := {
  opt_id : option string;
  opt_config : option string;
  opt_log : option string;
  opt_rpath : option string;
  opt_sdkid : option string;
  opt_url : option string;
  opt_timestamp : bool;
  opt_list : bool
}.

Section Flags.

(** urfave/cli replaces a string flag's [Value] by its environment
    variable when the variable is set; releases before 1.20 do so only
    when it is set to a non-empty string.  [emptyIsSet] tells which. *)
Variable emptyIsSet : bool.

(** [StringFlag.Apply] followed by the parse of the command line: the
    value on the command line, else the environment variable, else
    [Value]. *)
Definition applyString (f : StringFlag) (environ : gmap string string)
    (given : option string) : string :=
  match given with
  | Some x => x
  | None =>
      match environ !! EnvVar f with
      | Some x => if String.eqb x EmptyString && negb emptyIsSet then Value f else x
      | None => Value f
      end
  end.

(** The destinations after the library has read flags and environment. *)
Definition parseFlags (cl : CmdLine) (environ : gmap string string) (v : Vars) : Vars :=
  {| uri := applyString flag_url environ (opt_url cl);
     prjID := applyString flag_id environ (opt_id cl);
     rPath := applyString flag_rpath environ (opt_rpath cl);
     logLevel := applyString flag_log environ (opt_log cl);
     sdkid := applyString flag_sdkid environ (opt_sdkid cl);
     confFile := applyString flag_config environ (opt_config cl);
     withTimestamp := opt_timestamp cl;
     listProject := opt_list cl;
     args := args v; argsCommand := argsCommand v; envMap := envMap v |}.

End Flags.

(** ** [app.Run(args)]: when urfave/cli runs the action

    [app.Run] parses [args[1:]] with a [flag.FlagSet] of the standard
    library that holds every name of [app.Flags] and of the help and
    version flags the library appends ([help, h] and [version, v]).
    It runs [app.Action] only when the parse succeeds, no flag is given
    under two of its names, neither the help nor the version flag is
    set, and the first positional argument is not the name of the help
    command the library appends ([help], alias [h]). *)

Inductive FlagKind := StringKind | BoolKind.

(** The names the flag set defines. *)
Definition flagKind (name : string) : option FlagKind :=
  if existsb (String.eqb name) ["id"; "config"; "c"; "log"; "l"; "rpath"; "sdkid"; "url"]
  then Some StringKind
  else if existsb (String.eqb name)
            ["list"; "ls"; "timestamp"; "ts"; "help"; "h"; "version"; "v"]
  then Some BoolKind
  else None.

(** [strconv.ParseBool] *)
Definition ParseBool (str : string) : option bool :=
  if existsb (String.eqb str) ["1"; "t"; "T"; "TRUE"; "true"; "True"] then Some true
  else if existsb (String.eqb str) ["0"; "f"; "F"; "FALSE"; "false"; "False"] then Some false
  else None.

(** How [FlagSet.parseOne] reads one token. *)
Inductive Token :=
| TokStop                                        (* not a flag: the parse ends before it *)
| TokTerminator                                  (* [--]: the parse ends after it *)
| TokBad                                         (* bad flag syntax *)
| TokFlag (name : string) (value : option string).

(** [name] and the value after the first ['='] at index 1 or more. *)
Definition cutValue (name : string) : string * option string :=
  match name with
  | String d rest =>
      match Index rest "=" with
      | Some i => (String d (strTo i rest), Some (strFrom (S i) rest))
      | None => (name, None)
      end
  | EmptyString => (name, None)
  end.

Definition classify (s : string) : Token :=
  match s with
  | String c0 (String c1 r) =>
      if negb (Ascii.eqb c0 "-") then TokStop
      else if Ascii.eqb c1 "-" && String.eqb r EmptyString then TokTerminator
      else
        let name := if Ascii.eqb c1 "-" then r else String c1 r in
        match name with
        | EmptyString => TokBad
        | String d _ =>
            if Ascii.eqb d "-" || Ascii.eqb d "=" then TokBad
            else let '(name, value) := cutValue name in TokFlag name value
        end
  | _ => TokStop
  end.

Inductive FlagValue := StrVal (s : string) | BoolVal (b : bool).

(** A flag set on the command line: the name it was given under and
    the value. *)
Definition Visit : Type := string * FlagValue.

(** [FlagSet.Parse]: the flags set, in order, and the positional
    arguments; [None] when the parse fails.  [pending] is the string
    flag that takes the next token as its value. *)
Fixpoint parseFlagSet (pending : option string) (arguments : list string)
    (visits : list Visit) : option (list Visit * list string) :=
  match arguments with
  | [] =>
      match pending with
      | Some _ => None                           (* flag needs an argument *)
      | None => Some (visits, [])
      end
  | s :: rest =>
      match pending with
      | Some name => parseFlagSet None rest (visits ++ [(name, StrVal s)])
      | None =>
          match classify s with
          | TokStop => Some (visits, arguments)
          | TokTerminator => Some (visits, rest)
          | TokBad => None
          | TokFlag name value =>
              match flagKind name with
              | None => None                     (* flag provided but not defined *)
              | Some BoolKind =>
                  match value with
                  | Some x =>
                      match ParseBool x with
                      | Some b => parseFlagSet None rest (visits ++ [(name, BoolVal b)])
                      | None => None             (* invalid boolean value *)
                      end
                  | None => parseFlagSet None rest (visits ++ [(name, BoolVal true)])
                  end
              | Some StringKind =>
                  match value with
                  | Some x => parseFlagSet None rest (visits ++ [(name, StrVal x)])
                  | None => parseFlagSet (Some name) rest visits
                  end
              end
          end
      end
  end.

Definition visited (name : string) (visits : list Visit) : bool :=
  existsb (fun v => String.eqb v.1 name) visits.

(** [normalizeFlags] fails when a flag is given under two of its names. *)
Definition twoForms (visits : list Visit) : bool :=
  existsb (fun names => visited names.1 visits && visited names.2 visits)
    [("config", "c"); ("list", "ls"); ("log", "l"); ("timestamp", "ts");
     ("help", "h"); ("version", "v")].

(** The last value given to the flag of these names. *)
Definition strGiven (names : list string) (visits : list Visit) : option string :=
  foldl (fun acc v =>
           match v.2 with
           | StrVal x => if existsb (String.eqb v.1) names then Some x else acc
           | BoolVal _ => acc
           end) None visits.

Definition boolGiven (names : list string) (visits : list Visit) : option bool :=
  foldl (fun acc v =>
           match v.2 with
           | BoolVal b => if existsb (String.eqb v.1) names then Some b else acc
           | StrVal _ => acc
           end) None visits.

Inductive CliRun :=
| CliPanic                         (* [arguments[1:]] of no argument *)
| CliUsage                         (* incorrect usage: the help is shown, an error returned *)
| CliHelp                          (* the help flag: the help is shown *)
| CliVersion                       (* the version flag: the version is shown *)
| CliCommand                       (* the help command runs *)
| CliAction (visits : list Visit). (* [app.Action] runs *)

Definition cliRun (arguments : list string) : CliRun :=
  match arguments with
  | [] => CliPanic
  | _ :: tail =>
      match parseFlagSet None tail [] with
      | None => CliUsage
      | Some (visits, positional) =>
          if twoForms visits then CliUsage
          else if default false (boolGiven ["help"; "h"] visits) then CliHelp
          else if default false (boolGiven ["version"; "v"] visits) then CliVersion
          else
            match positional with
            | name :: _ =>
                if String.eqb name "help" || String.eqb name "h" then CliCommand
                else CliAction visits
            | [] => CliAction visits
            end
      end
  end.

(** The value a boolean flag takes from its environment variable:
    false when the variable is unset or empty.  [None] when it holds
    text [strconv.ParseBool] refuses: the library then ignores the
    variable or refuses to run, depending on the release. *)
Definition envBool (environ : gmap string string) (var : string) : option bool :=
  match environ !! var with
  | None => Some false
  | Some x => if String.eqb x EmptyString then Some false else ParseBool x
  end.

(** What the library reads when [app.Run(arguments)] runs the action:
    the string flags given on the command line, the list flag, and the
    timestamp flag, given on the command line or else taken from
    [XDS_TIMESTAMP].  [None] when the action is not run. *)
Definition readLine (arguments : list string) (environ : gmap string string)
    : option CmdLine :=
  match cliRun arguments with
  | CliAction visits =>
      match envBool environ "XDS_TIMESTAMP" with
      | Some ts =>
          Some {| opt_id := strGiven ["id"] visits;
                  opt_config := strGiven ["config"; "c"] visits;
                  opt_log := strGiven ["log"; "l"] visits;
                  opt_rpath := strGiven ["rpath"] visits;
                  opt_sdkid := strGiven ["sdkid"] visits;
                  opt_url := strGiven ["url"] visits;
                  opt_timestamp := default ts (boolGiven ["timestamp"; "ts"] visits);
                  opt_list := default false (boolGiven ["list"; "ls"] visits) |}
      | None => None
      end
  | _ => None
  end.

(** ** What the agent and the host answer

    The answers of the collaborators [app.Action] calls, in the order it
    calls them.  An HTTP call answers [inl err] or [inr data]. *)

(** The body of a listing response as [json.Unmarshal] reads it into an
    empty slice: the elements it stored and the error it returned. *)
Record Payload (A : Type) := { items : list A; errMar : option string }.
Arguments items {A} _.
Arguments errMar {A} _.

(** The signals the socket delivers to the four callbacks of lines 367-397. *)
Inductive Event :=
| EvError (err : string)
| EvDisconnection (err : option string)
| ExecOutMsg (Timestamp Stdout Stderr : string)
| ExecExitMsg (Error : option string) (Code : Z).

Record Agent := {
  newClient : string -> option string;      (* error of common.HTTPNewClient(baseURL, conf) *)
  clientID : string;                        (* c.GetClientID() *)
  getVersion : string + string;             (* c.HTTPGet("/version", &data) *)
  getProjects : string + Payload ProjectConfig.t;
  getSdks : string + Payload SDK.t;
  newIOClient : string -> option string;    (* error of socketio_client.NewClient(baseURL, opts) *)
  getwd : string + string;                  (* os.Getwd() *)
  post : ExecArgs.t -> option string;       (* error of c.HTTPPost(execCommand, body) *)
  events : list Event                       (* the signals, in order of arrival *)
}.

(** ** The event callbacks and the wait on [exitChan] (lines 361-397, 451-463) *)

Record exitResult := { error : option string; code : Z }.

(** The state of a session once the request is posted. *)
Record Session := {
  incoming : list Event;        (* signals the socket has still to deliver *)
  exitChan : list exitResult;   (* make(chan exitResult, 1) *)
  written : list Effect;        (* the writes so far, oldest first *)
  returned : option Stop        (* what the select of line 452 returned *)
}.

Definition streaming (evs : list Event) : Session :=
  {| incoming := evs; exitChan := []; written := []; returned := None |}.

(** [exitChan <- r]: the send blocks ([None]) while the buffer of
    capacity 1 is full. *)
Definition send (r : exitResult) (s : Session) : option Session :=
  if decide (length (exitChan s) < 1)%nat then
    Some {| incoming := incoming s; exitChan := exitChan s ++ [r];
            written := written s; returned := returned s |}
  else None.

Definition write (w : list Effect) (s : Session) : Session :=
  {| incoming := incoming s; exitChan := exitChan s;
     written := written s ++ w; returned := returned s |}.

(** [outFunc] (lines 375-389), as the writes it makes. *)
Definition outFunc (withTimestamp : bool) (timestamp stdout stderr : string) : list Effect :=
  let tm := EmptyString in
  let tm := if withTimestamp then timestamp +:+ "| " else tm in
  let tm := if withTimestamp then timestamp +:+ "| " else tm in
  (if negb (String.eqb stdout EmptyString) then [Stdout (tm +:+ stdout)] else [])
  ++ (if negb (String.eqb stderr EmptyString) then [Stderr (tm +:+ stderr)] else []).

(** The callback registered for the kind of [ev], run on [ev]. *)
Definition callback (withTimestamp : bool) (ev : Event) (s : Session) : option Session :=
  match ev with
  | EvError err => Some (write [Stdout ("ERROR: " +:+ " " +:+ err +:+ nl)] s)
  | EvDisconnection err => send {| error := err; code := 2 |} s
  | ExecOutMsg ts out err => Some (write (outFunc withTimestamp ts out err) s)
  | ExecExitMsg err c => send {| error := err; code := c |} s
  end.

(** Lines 453-462: what the action returns for a received result. *)
Definition exitOf (res : exitResult) : Stop :=
  let errStr := EmptyString in
  let errStr := match error res with Some e => e | None => errStr end in
  ExitError errStr (code res).

(** [case res := <-exitChan]: possible once the channel holds a result. *)
Definition receive (s : Session) : option Session :=
  match exitChan s with
  | res :: q =>
      Some {| incoming := incoming s; exitChan := q;
              written := written s; returned := Some (exitOf res) |}
  | [] => None
  end.

Definition deliver (withTimestamp : bool) (s : Session) : option Session :=
  match incoming s with
  | ev :: evs =>
      callback withTimestamp ev
        {| incoming := evs; exitChan := exitChan s;
           written := written s; returned := returned s |}
  | [] => None
  end.

(** One step of a session whose action has not returned: the socket
    runs the callback of the next signal, or the action receives from
    [exitChan].  The two run concurrently, so either may come first. *)
Inductive step (withTimestamp : bool) (s s' : Session) : Prop :=
| step_deliver : returned s = None -> deliver withTimestamp s = Some s' -> step withTimestamp s s'
| step_receive : returned s = None -> receive s = Some s' -> step withTimestamp s s'.

(** The schedule in which the action receives as soon as it can;
    [n] bounds the number of signals delivered. *)
Fixpoint waitExit (withTimestamp : bool) (n : nat) (s : Session) : Session :=
  match receive s with
  | Some s' => s'
  | None =>
      match n with
      | 0 => s
      | S n' =>
          match deliver withTimestamp s with
          | Some s' => waitExit withTimestamp n' s'
          | None => s
          end
      end
  end.

(** ** [app.Action] (lines 237-464) *)

(** [logrus.ParseLevel(lvl)] succeeds. *)
Definition ParseLevel (lvl : string) : bool :=
  let l := ToLower lvl in
  String.eqb l "panic" || String.eqb l "fatal" || String.eqb l "error"
  || String.eqb l "warn" || String.eqb l "warning" || String.eqb l "info"
  || String.eqb l "debug".

(** [regexp.MatchString("Get http.?://", s)]: the text [Get http],
    at most one character other than a newline, then [://], anywhere
    in [s]. *)
Fixpoint matchGetHttp (s : string) : bool :=
  (HasPrefix s "Get http"
   && (let r := strFrom 8 s in
       HasPrefix r "://"
       || match r with
          | String c r' => negb (Ascii.eqb c (ascii_of_nat 10)) && HasPrefix r' "://"
          | EmptyString => false
          end))
  || match s with
     | String _ s' => matchGetHttp s'
     | EmptyString => false
     end.

Definition cat : list string -> string := String.concat EmptyString.

(** An HTTP error ends the action with code 1 and the error's text. *)
Definition orExit {A} (r : string + A) : Act A :=
  match r with
  | inl err => stop (ExitError err 1)
  | inr a => mret a
  end.

(** Lines 413-420: the relative path read off the working directory. *)
Definition autoRPath (cwd ClientPath : string) : option string :=
  let fldRp := ClientPath in
  let fldRp := if negb (HasPrefix fldRp "/") then "/" +:+ fldRp else fldRp in
  match SplitAfter cwd fldRp with
  | [_; sp1] => Some (Trim sp1 "/")
  | _ => None
  end.

(** Lines 261-264: the URL both clients are created with. *)
Definition baseURLOf (uri : string) : string :=
  let baseURL := uri in
  if negb (HasPrefix uri "http://") then "http://" +:+ uri else baseURL.

Section Action.

(** [strconv.Quote], the [%q] verb of [fmt.Sprintf]. *)
Variable Quote : string -> string.

Definition projectLine (f : ProjectConfig.t) : string :=
  cat [nl; "  "; ProjectConfig.ID f; tab; " | "; ProjectConfig.Label f]
  +:+ (if negb (String.eqb (ProjectConfig.DefaultSdk f) EmptyString)
       then cat [tab; "(default SDK: "; ProjectConfig.DefaultSdk f; ")"]
       else EmptyString).

Definition sdkLine (s : SDK.t) : string :=
  cat ["  "; SDK.ID s; tab; " | "; SDK.Name s; nl].

Definition exampleText (ccHelp : string) (projects : list ProjectConfig.t)
    (sdks : list SDK.t) : string :=
  match projects, sdks with
  | p0 :: _, s0 :: _ =>
      cat [nl; "For example: "; nl;
           "  "; AppName; " --id "; Quote (ProjectConfig.ID p0);
           " --sdkid "; Quote (SDK.ID s0); " -- "; ccHelp; nl;
           " or"; nl;
           "  XDS_PROJECT_ID="; Quote (ProjectConfig.ID p0);
           " XDS_SDK_ID="; Quote (SDK.ID s0); "  "; AppNativeName; " "; ccHelp; nl]
  | _, _ => EmptyString
  end.

(** Lines 300-344, the branch taken when [prjID == "" || listProject]. *)
Definition helpFlow (v : Vars) (a : Agent) (ccHelp : string)
    (projects : Payload ProjectConfig.t) : Act unit :=
  let msg := EmptyString in
  let exc := 0%Z in
  let '(msg, exc) :=
    if negb (listProject v)
    then ("XDS_PROJECT_ID environment variable must be set !" +:+ nl, 1%Z)
    else (msg, exc) in
  let msg :=
    match errMar projects with
    | None =>
        cat [msg; "List of existing projects (use: export XDS_PROJECT_ID=<< ID >>): "; nl;
             "  ID"; tab; tab; tab; tab; " | Label";
             cat (projectLine <$> items projects); nl]
    | Some _ => msg
    end in
  call (Get "/servers/0/sdks");;
  sdks ← orExit (getSdks a);
  let msg :=
    match errMar sdks with
    | None =>
        cat [msg; nl; "List of installed cross SDKs (use: export XDS_SDK_ID=<< ID >>): "; nl;
             "  ID"; tab; tab; tab; tab; tab; " | NAME"; nl;
             cat (sdkLine <$> items sdks)]
    | Some _ => msg
    end in
  let msg := msg +:+ exampleText ccHelp (items projects) (items sdks) in
  stop (ExitError msg exc).

(** Lines 400-422: the project of [prjID] and the relative path. *)
Definition findProject (projects : list ProjectConfig.t) (prjID : string)
    : option ProjectConfig.t :=
  List.find (fun f => String.eqb (ProjectConfig.ID f) prjID) projects.

Definition setupRPath (v : Vars) (a : Agent) (project : option ProjectConfig.t) : string :=
  match project with
  | Some project =>
      if String.eqb (rPath v) EmptyString then
        match getwd a with
        | inr cwd =>
            match autoRPath cwd (ProjectConfig.ClientPath project) with
            | Some r => r
            | None => rPath v
            end
        | inl _ => rPath v
        end
      else rPath v
  | None => rPath v
  end.

(** Lines 426-429; the order of a Go map iteration is not specified,
    here it is the order of [map_to_list]. *)
Definition buildEnv (envMap : gmap string string) : list string :=
  (fun kv => kv.1 +:+ "=" +:+ kv.2) <$> map_to_list envMap.

Definition Action (v : Vars) (a : Agent) : Act unit :=
  let execCommand := "/exec" in
  let ccHelp := "'mkdir build; cd build; cmake ..'" in
  (if ParseLevel (logLevel v) then mret tt
   else stop (ExitError (cat ["Invalid log level : "; dq; logLevel v; dq; nl]) 1));;
  let baseURL := baseURLOf (uri v) in
  call (NewHTTPClient baseURL);;
  match newClient a baseURL with
  | Some errmsg =>
      if matchGetHttp errmsg then
        match LastIndex errmsg ":" with
        | Some i => stop (ExitError (cat ["Cannot connection to "; baseURL; strFrom i errmsg]) 1)
        | None => stop (Panic "slice bounds out of range")
        end
      else stop (ExitError errmsg 1)
  | None => mret tt
  end;;
  call (Get "/version");;
  orExit (getVersion a);;
  call (Get "/projects");;
  projects ← orExit (getProjects a);
  if String.eqb (prjID v) EmptyString || listProject v then
    helpFlow v a ccHelp projects
  else
    call (NewIOClient baseURL (clientID a));;
    match newIOClient a baseURL with
    | Some err => stop (ExitError ("IO.socket connection error: " +:+ err) 1)
    | None => mret tt
    end;;
    let project := findProject (items projects) (prjID v) in
    let rPath := setupRPath v a project in
    let env := buildEnv (envMap v) in
    match argsCommand v with
    | [] => stop (Panic "index out of range")
    | cmd :: rest =>
        let body := {| ExecArgs.ID := prjID v; ExecArgs.SdkID := sdkid v;
                       ExecArgs.Cmd := Trim cmd " "; ExecArgs.Args := rest;
                       ExecArgs.Env := env; ExecArgs.RPath := rPath;
                       ExecArgs.CmdTimeout := 60 |} in
        (* json.Marshal does not fail on this structure *)
        call (Post execCommand body);;
        match post a body with
        | Some err => stop (ExitError err 1)
        | None => mret tt
        end;;
        (* the select of line 452, the signals taken to arrive once the
           request is posted; [inr tt]: no terminal signal ever arrives
           and the action stays blocked *)
        let s := waitExit (withTimestamp v) (length (events a)) (streaming (events a)) in
        (written s, match returned s with Some e => inl e | None => inr tt end)
    end.

(** [cli.HandleExitCoder], which [app.Run] applies to what the action
    returns: a non-empty message goes to the standard error stream,
    then the process exits with the code. *)
Definition HandleExitCoder (m : Act unit) : Act unit :=
  match m with
  | (t, inl (ExitError message c)) =>
      (t ++ (if String.eqb message EmptyString then [] else [Stderr (message +:+ nl)]),
       inl (ExitError message c))
  | _ => m
  end.

Variable emptyIsSet : bool.

(** [main]: the split, then [app.Run(args)] for a command line on
    which the library runs the action, [cl] being what it reads on
    [args] ([readLine], above); it fills the destinations, runs the
    action and hands what the action returns to [HandleExitCoder]. *)
Definition main (fs : FileSys) (osArgs : list string) (environ : gmap string string)
    (cl : CmdLine) (a : Agent) : Act unit :=
  st ← splitArgs fs osArgs environ;
  HandleExitCoder (Action (parseFlags emptyIsSet cl st.2 st.1) a).

End Action.

(** ** Notions the properties are stated with *)

(** A terminal signal: a disconnection or an exit event. *)
Definition terminal (ev : Event) : bool :=
  match ev with
  | EvDisconnection _ | ExecExitMsg _ _ => true
  | _ => false
  end.

(** The text of a Go error, empty for [nil]. *)
Definition errText (err : option string) : string := default EmptyString err.

(** The prefix of a written chunk: the timestamp and ["| "] when the
    timestamp flag is set, nothing otherwise. *)
Definition stamp (withTimestamp : bool) (timestamp : string) : string :=
  if withTimestamp then timestamp +:+ "| " else EmptyString.

(** What the delivery of one signal writes: for an output event the
    non-empty chunks, each to its stream; for an [error] signal the
    line of [fmt.Println]; nothing for a terminal signal. *)
Definition chunks (withTimestamp : bool) (ev : Event) : list Effect :=
  match ev with
  | ExecOutMsg ts out err =>
      (if decide (out = EmptyString) then [] else [Stdout (stamp withTimestamp ts +:+ out)])
      ++ (if decide (err = EmptyString) then [] else [Stderr (stamp withTimestamp ts +:+ err)])
  | EvError err => [Stdout ("ERROR:  " +:+ err +:+ nl)]
  | _ => []
  end.

(** The result a terminal signal sends, and the first one of a sequence. *)
Definition signalOf (ev : Event) : option exitResult :=
  match ev with
  | EvDisconnection err => Some {| error := err; code := 2 |}
  | ExecExitMsg err c => Some {| error := err; code := c |}
  | _ => None
  end.

Fixpoint firstSignal (evs : list Event) : option exitResult :=
  match evs with
  | [] => None
  | ev :: evs' =>
      match signalOf ev with
      | Some r => Some r
      | None => firstSignal evs'
      end
  end.

(** [sep] occurs in [s] at offset [m]. *)
Definition occursAt (sep s : string) (m : nat) : Prop :=
  exists l r, s = l +:+ sep +:+ r /\ String.length l = m.

(** Line 413-415: the client root made to begin with ['/']. *)
Definition normRoot (ClientPath : string) : string :=
  if HasPrefix ClientPath "/" then ClientPath else "/" +:+ ClientPath.

(** The invariant of a session whose first terminal signal sends [r]:
    [r] is still to come, or it is in the channel, or it was received. *)
Definition carries (r : exitResult) (s : Session) : Prop :=
  (returned s = None /\ exitChan s = [] /\ firstSignal (incoming s) = Some r)
  \/ (returned s = None /\ exitChan s = [r])
  \/ returned s = Some (exitOf r).

(** A token that makes the scan source a config file. *)
Definition isConfigToken (a : string) : bool :=
  String.eqb a "-c" || String.eqb a "--config".

(** The string parameters: flag, value on the command line, destination. *)
Definition stringParams : list (StringFlag * (CmdLine -> option string) * (Vars -> string)) :=
  [ (flag_id, opt_id, prjID); (flag_config, opt_config, confFile);
    (flag_log, opt_log, logLevel); (flag_rpath, opt_rpath, rPath);
    (flag_sdkid, opt_sdkid, sdkid); (flag_url, opt_url, uri) ].

(** The config files the scan sources, in order: one for every config
    token met before the separator whose next token names a file. *)
Fixpoint sourced (fs : FileSys) (osArgs : list string) (idx : nat)
    (rest : list string) : list (gmap string string) :=
  match rest with
  | [] => []
  | a :: rest' =>
      (if isConfigToken a then
         match osArgs !! (idx + 2)%nat with
         | Some f =>
             if String.eqb f EmptyString then []
             else match dotenv fs f with Some m => [m] | None => [] end
         | None => []
         end
       else [])
      ++ (if String.eqb a "--" then [] else sourced fs osArgs (S idx) rest')
  end.

(** The pairs of the sourced files, a later file over an earlier one. *)
Definition fileLayer (fs : FileSys) (osArgs : list string) : gmap string string :=
  match osArgs with
  | arg0 :: tail =>
      if negb (String.eqb (Base arg0) AppNativeName)
      then foldl (fun layer m => m ∪ layer) ∅ (sourced fs osArgs 0 tail)
      else ∅
  | [] => ∅
  end.

(** The value C3 names: the first source, in the order flag, config
    file, environment, that gives a non-empty value, else the default. *)
Definition nonEmpty (x : option string) : option string :=
  match x with
  | Some s => if String.eqb s EmptyString then None else Some s
  | None => None
  end.

Definition claimedValue (flag file env : option string) (dflt : string) : string :=
  match nonEmpty flag, nonEmpty file, nonEmpty env with
  | Some x, _, _ => x
  | None, Some x, _ => x
  | None, None, Some x => x
  | None, None, None => dflt
  end.

(** [sub] is a part of [s]. *)
Definition contains (sub s : string) : Prop := exists l r, s = l +:+ sub +:+ r.

(** The parts of the help message of lines 300-343. *)
Definition helpNotice (listProject : bool) : string :=
  if listProject then EmptyString
  else "XDS_PROJECT_ID environment variable must be set !" +:+ nl.

Definition projectsSection (projects : Payload ProjectConfig.t) : string :=
  match errMar projects with
  | None =>
      cat ["List of existing projects (use: export XDS_PROJECT_ID=<< ID >>): "; nl;
           "  ID"; tab; tab; tab; tab; " | Label"]
      +:+ cat (projectLine <$> items projects) +:+ nl
  | Some _ => EmptyString
  end.

Definition sdksSection (sdks : Payload SDK.t) : string :=
  match errMar sdks with
  | None =>
      cat [nl; "List of installed cross SDKs (use: export XDS_SDK_ID=<< ID >>): "; nl;
           "  ID"; tab; tab; tab; tab; tab; " | NAME"; nl]
      +:+ cat (sdkLine <$> items sdks)
  | Some _ => EmptyString
  end.

Definition helpText (Quote : string -> string) (listProject : bool)
    (projects : Payload ProjectConfig.t) (sdks : Payload SDK.t) : string :=
  helpNotice listProject +:+ projectsSection projects +:+ sdksSection sdks
  +:+ exampleText Quote "'mkdir build; cd build; cmake ..'" (items projects) (items sdks).

(** The action got as far as the project list: the log level is valid,
    the HTTP client connected, [/version] and [/projects] answered. *)
Definition listed (v : Vars) (a : Agent) (projects : Payload ProjectConfig.t) : Prop :=
  ParseLevel (logLevel v) = true
  /\ newClient a (baseURLOf (uri v)) = None
  /\ (exists version, getVersion a = inr version)
  /\ getProjects a = inr projects.

(** ** Sample inputs *)

(** [strconv.Quote] on printable ASCII text without quotes or backslashes. *)
Definition quotePlain (s : string) : string := dq +:+ s +:+ dq.

Definition noFiles : FileSys :=
  {| fileExists := fun _ => false; dotenv := fun _ => None |}.

(** A file [conf] with the lines [XDS_PROJECT_ID=fromfile] and [XDS_SDK_ID=]. *)
Definition confFiles : FileSys :=
  {| fileExists := fun f => String.eqb f "conf";
     dotenv := fun f =>
       if String.eqb f "conf"
       then Some {[ "XDS_PROJECT_ID" := "fromfile"; "XDS_SDK_ID" := EmptyString ]}
       else None |}.

(** An environment that sets both variables. *)
Definition sampleEnv : gmap string string :=
  {[ "XDS_PROJECT_ID" := "fromenv"; "XDS_SDK_ID" := "abc" ]}.

(** The variables a split ended with. *)
Definition scanned (m : Act Scan) : Vars :=
  match outcome m with
  | inr (v, _) => v
  | inl _ => initVars [] EmptyString
  end.

Definition noFlags : CmdLine :=
  {| opt_id := None; opt_config := None; opt_log := None; opt_rpath := None;
     opt_sdkid := None; opt_url := None; opt_timestamp := false; opt_list := false |}.

Definition idFlag (id : string) : CmdLine :=
  {| opt_id := Some id; opt_config := None; opt_log := None; opt_rpath := None;
     opt_sdkid := None; opt_url := None; opt_timestamp := false; opt_list := false |}.

Definition logFlag (l : string) : CmdLine :=
  {| opt_id := None; opt_config := None; opt_log := Some l; opt_rpath := None;
     opt_sdkid := None; opt_url := None; opt_timestamp := false; opt_list := false |}.

Definition configFlag (f : string) : CmdLine :=
  {| opt_id := None; opt_config := Some f; opt_log := None; opt_rpath := None;
     opt_sdkid := None; opt_url := None; opt_timestamp := false; opt_list := false |}.

Definition project1 : ProjectConfig.t :=
  {| ProjectConfig.ID := "p1"; ProjectConfig.Label := "L1";
     ProjectConfig.ClientPath := "proj"; ProjectConfig.DefaultSdk := EmptyString |}.

Definition sdk1 : SDK.t := {| SDK.ID := "s1"; SDK.Name := "N1" |}.

(** An agent that answers every call and streams two chunks and an exit. *)
Definition agent1 : Agent :=
  {| newClient := fun _ => None; clientID := "sid"; getVersion := inr "1.0";
     getProjects := inr {| items := [project1]; errMar := None |};
     getSdks := inr {| items := [sdk1]; errMar := None |};
     newIOClient := fun _ => None; getwd := inr "/home/u/proj/src";
     post := fun _ => None;
     events := [ExecOutMsg "t1" "out1" EmptyString; ExecOutMsg "t2" EmptyString "err1";
                ExecExitMsg None 0] |}.

(** The same agent with one listing call failing. *)
Definition agentNoProjects : Agent :=
  {| newClient := newClient agent1; clientID := clientID agent1;
     getVersion := getVersion agent1; getProjects := inl "HTTP status 500";
     getSdks := getSdks agent1; newIOClient := newIOClient agent1;
     getwd := getwd agent1; post := post agent1; events := events agent1 |}.

Definition agentNoSdks : Agent :=
  {| newClient := newClient agent1; clientID := clientID agent1;
     getVersion := getVersion agent1; getProjects := getProjects agent1;
     getSdks := inl "HTTP status 500"; newIOClient := newIOClient agent1;
     getwd := getwd agent1; post := post agent1; events := events agent1 |}.

(** The same agent with a project payload that does not decode. *)
Definition agentMalformed : Agent :=
  {| newClient := newClient agent1; clientID := clientID agent1;
     getVersion := getVersion agent1;
     getProjects := inr {| items := []; errMar := Some "unexpected end of JSON input" |};
     getSdks := getSdks agent1; newIOClient := newIOClient agent1;
     getwd := getwd agent1; post := post agent1; events := events agent1 |}.

(** The same agent, the socket dropping before any exit event. *)
Definition agentBoom : Agent :=
  {| newClient := newClient agent1; clientID := clientID agent1;
     getVersion := getVersion agent1; getProjects := getProjects agent1;
     getSdks := getSdks agent1; newIOClient := newIOClient agent1;
     getwd := getwd agent1; post := post agent1;
     events := [EvDisconnection (Some "boom")] |}.

(** The variables of a run with the given project ID and listing flag. *)
Definition varsOf (prjID : string) (listProject : bool) (argsCommand : list string) : Vars :=
  {| uri := "localhost:8000"; prjID := prjID; rPath := EmptyString;
     logLevel := defaultLogLevel; sdkid := EmptyString; confFile := EmptyString;
     withTimestamp := false; listProject := listProject;
     args := []; argsCommand := argsCommand; envMap := ∅ |}.

(** ** [exists] (lines 469-479) *)

(** What [os.Stat(path)] returned: no error, or an error that
    [os.IsNotExist] recognises or does not. *)
Inductive StatResult :=
| StatOk
| StatErr (isNotExist : bool).

(** [exists(path)], on the result of the [os.Stat] it makes. *)
Definition exists' (stat : StatResult) : bool :=
  match stat with
  | StatOk => true
  | StatErr isNotExist => if isNotExist then false else true
  end.

(** The files of a host, given what [os.Stat] and godotenv answer. *)
Definition hostFiles (stat : string -> StatResult)
    (read : string -> option (gmap string string)) : FileSys :=
  {| fileExists := fun path => exists' (stat path); dotenv := read |}.

(** The last byte of a string. *)
Fixpoint lastByte (s : string) : option ascii :=
  match s with
  | EmptyString => None
  | String c EmptyString => Some c
  | String _ s' => lastByte s'
  end.

(** Every byte of [s] is in [cutset]. *)
Fixpoint allIn (cutset s : string) : bool :=
  match s with
  | EmptyString => true
  | String c s' => inCutset cutset c && allIn cutset s'
  end.

(** What the scan leaves besides the two slices. *)
Definition sourcing (st : Scan) : string * gmap string string * gmap string string :=
  (confFile st.1, envMap st.1, st.2).

(** Two runs of the scan that write the same and end alike, the two
    slices apart. *)
Definition alike (m m' : Act Scan) : Prop :=
  effects m = effects m'
  /\ sum_map id sourcing (outcome m) = sum_map id sourcing (outcome m').

(** The results sent on [exitChan] that a session still holds: those
    in the channel, and the one the action received. *)
Definition held (s : Session) : nat :=
  (length (exitChan s) + match returned s with Some _ => 1 | None => 0 end)%nat.

(** An agent that cannot be reached, with the error [net/http] gives. *)
Definition agentDown : Agent :=
  {| newClient := fun _ =>
       Some "Get http://localhost:8000/api/v1/version: dial tcp 127.0.0.1:8000: connect: connection refused";
     clientID := clientID agent1; getVersion := getVersion agent1;
     getProjects := getProjects agent1; getSdks := getSdks agent1;
     newIOClient := newIOClient agent1; getwd := getwd agent1;
     post := post agent1; events := events agent1 |}.

(** The same agent as [agent1], the process never ending. *)
Definition agentSilent : Agent :=
  {| newClient := newClient agent1; clientID := clientID agent1;
     getVersion := getVersion agent1; getProjects := getProjects agent1;
     getSdks := getSdks agent1; newIOClient := newIOClient agent1;
     getwd := getwd agent1; post := post agent1;
     events := [ExecOutMsg "t1" "out1" EmptyString; EvError "lost"] |}.

(** Every byte of [s] is an ASCII character; on such text bytes and
    runes are the same, and [strings.ToLower] changes the letters [A]
    to [Z] only. *)
Fixpoint isASCII (s : string) : bool :=
  match s with
  | EmptyString => true
  | String c s' => (nat_of_ascii c <? 128)%nat && isASCII s'
  end.

(** A call of the action, as opposed to a write to a standard stream. *)
Definition isCall (e : Effect) : bool :=
  match e with
  | Stdout _ | Stderr _ => false
  | _ => true
  end.

(** * Properties *)

(** ** Byte strings *)

Section StringFacts.

Implicit Types s sep l r : string.

Lemma app_cons c s r : String c s +:+ r = String c (s +:+ r).
Proof. reflexivity. Qed.

Lemma app_empty_l s : EmptyString +:+ s = s.
Proof. reflexivity. Qed.

Lemma app_assoc_s l s r : (l +:+ s) +:+ r = l +:+ s +:+ r.
Proof. induction l as [|c l IH]; [done|]. by rewrite !app_cons, IH. Qed.

Lemma length_app_s l r : String.length (l +:+ r) = (String.length l + String.length r)%nat.
Proof. induction l as [|c l IH]; [done|]. rewrite app_cons. simpl. by rewrite IH. Qed.

Lemma strFrom_app l r : strFrom (String.length l) (l +:+ r) = r.
Proof. induction l as [|c l IH]; [done|]. by rewrite app_cons. Qed.

Lemma length_strFrom n : forall s,
  String.length (strFrom n s) = (String.length s - n)%nat.
Proof. induction n as [|n IH]; intros [|c s]; simpl; auto with lia. Qed.

Lemma HasPrefix_spec sep : forall s, HasPrefix s sep = true <-> exists r, s = sep +:+ r.
Proof.
  induction sep as [|c sep IH]; intros s; simpl.
  - split; [by exists s|done].
  - destruct s as [|d s]; [split; [done|by intros [r Hr]]|].
    destruct (Ascii.eqb_spec c d) as [->|Hne].
    + rewrite IH. split; intros [r Hr]; exists r.
      * by rewrite app_cons, Hr.
      * rewrite app_cons in Hr. by simplify_eq.
    + split; [done|]. intros [r Hr]. rewrite app_cons in Hr. by simplify_eq.
Qed.

Lemma occursAt_0 sep s : occursAt sep s 0 <-> HasPrefix s sep = true.
Proof.
  rewrite HasPrefix_spec. split.
  - intros ([|] & r & Hs & Hl); [by exists r|done].
  - intros [r Hs]. by exists EmptyString, r.
Qed.

Lemma occursAt_S sep c s j : occursAt sep (String c s) (S j) <-> occursAt sep s j.
Proof.
  split.
  - intros ([|d l] & r & Hs & Hl); [done|]. rewrite app_cons in Hs.
    simpl in Hl. exists l, r. by simplify_eq.
  - intros (l & r & Hs & Hl). exists (String c l), r. rewrite app_cons, Hs.
    simpl. by rewrite Hl.
Qed.

(** [Index] finds the first occurrence. *)
Lemma Index_Some sep : forall s m,
  Index s sep = Some m ->
  occursAt sep s m /\ forall j, (j < m)%nat -> ~ occursAt sep s j.
Proof.
  induction s as [|c s IH]; intros m; simpl.
  - destruct (HasPrefix EmptyString sep) eqn:E; [|done].
    intros [= <-]. split; [by apply occursAt_0|lia].
  - destruct (HasPrefix (String c s) sep) eqn:E.
    + intros [= <-]. split; [by apply occursAt_0|lia].
    + destruct (Index s sep) as [m'|]; [|done]. intros [= <-].
      destruct (IH m' eq_refl) as [Ho Hfirst]. split; [by apply occursAt_S|].
      intros [|j] Hj; [rewrite occursAt_0; congruence|].
      rewrite occursAt_S. apply Hfirst. lia.
Qed.

Lemma Index_None sep : forall s, Index s sep = None -> forall j, ~ occursAt sep s j.
Proof.
  induction s as [|c s IH]; simpl.
  - destruct (HasPrefix EmptyString sep) eqn:E; [done|]. intros _ j (l & r & Hs & Hl).
    destruct l; [|done]. rewrite app_empty_l in Hs.
    assert (HasPrefix EmptyString sep = true); [|congruence].
    apply HasPrefix_spec. eauto.
  - destruct (HasPrefix (String c s) sep) eqn:E; [done|].
    destruct (Index s sep) as [m'|] eqn:E'; [done|]. intros _ [|j].
    + rewrite occursAt_0. congruence.
    + rewrite occursAt_S. by apply IH.
Qed.

Lemma Index_first sep s m :
  occursAt sep s m -> (forall j, (j < m)%nat -> ~ occursAt sep s j) ->
  Index s sep = Some m.
Proof.
  intros Ho Hfirst. destruct (Index s sep) as [m'|] eqn:E.
  - destruct (Index_Some _ _ _ E) as [Ho' Hfirst'].
    destruct (Nat.lt_trichotomy m m') as [?|[->|?]]; [|done|].
    + by destruct (Hfirst' m).
    + by destruct (Hfirst m').
  - by destruct (Index_None _ _ E m).
Qed.

Lemma Index_bound sep s m :
  Index s sep = Some m -> (m + String.length sep <= String.length s)%nat.
Proof.
  intros (l & r & -> & <-)%Index_Some%proj1. rewrite !length_app_s. lia.
Qed.

(** The rounds [Count] allows are enough: more change nothing. *)
Lemma count_loop_enough sep : sep <> EmptyString -> forall n s,
  (String.length s <= n)%nat ->
  count_loop n s sep = count_loop (String.length s) s sep.
Proof.
  intros Hne. induction n as [n IH] using lt_wf_ind. intros s Hn.
  destruct n as [|n]; [by replace (String.length s) with 0%nat by lia|].
  destruct (String.length s) as [|k] eqn:Ek.
  - destruct s; [|done]. simpl. destruct sep; [done|]. done.
  - simpl. destruct (Index s sep) as [m|] eqn:E; [|done]. f_equal.
    pose proof (length_strFrom (m + String.length sep) s) as Hl.
    assert (0 < String.length sep)%nat by (destruct sep; simpl; [done|lia]).
    rewrite (IH n), (IH k); auto with lia.
Qed.

Lemma count_loop_0 sep n s :
  sep <> EmptyString -> (String.length s <= n)%nat ->
  count_loop n s sep = 0%nat <-> Index s sep = None.
Proof.
  intros Hne Hn. destruct n as [|n]; simpl.
  - split; [intros _|done]. destruct s; [|simpl in Hn; lia].
    destruct sep; done.
  - destruct (Index s sep); split; done.
Qed.

Lemma genSplit_loop_cons n s sep k :
  exists x xs, genSplit_loop n s sep k = x :: xs.
Proof. destruct n; simpl; [eauto|]. destruct (Index s sep); eauto. Qed.

(** [SplitAfter] has exactly two parts when [sep] occurs in [s] and
    does not occur again after its first occurrence. *)
Lemma SplitAfter_two s sep :
  sep <> EmptyString ->
  match SplitAfter s sep with
  | [_; sp1] =>
      exists m, Index s sep = Some m
                /\ sp1 = strFrom (m + String.length sep) s
                /\ Index sp1 sep = None
  | _ =>
      Index s sep = None
      \/ exists m, Index s sep = Some m
                   /\ Index (strFrom (m + String.length sep) s) sep <> None
  end.
Proof.
  intros Hne. unfold SplitAfter, genSplit, Count.
  destruct sep as [|c0 sep0] eqn:Esep; [done|]. rewrite <- Esep in *. clear Esep c0 sep0.
  assert (0 < String.length sep)%nat as Hlen by (destruct sep; simpl; [done|lia]).
  destruct (Index s sep) as [m|] eqn:E.
  - pose proof (Index_bound _ _ _ E) as Hb.
    destruct (String.length s) as [|k] eqn:Ek; [lia|].
    cbn [count_loop]. rewrite E. cbn [genSplit_loop]. rewrite E.
    set (rest := strFrom (m + String.length sep) s).
    assert (String.length rest <= k)%nat as Hrest
      by (unfold rest; rewrite length_strFrom; lia).
    destruct (count_loop k rest sep) as [|c] eqn:Ec.
    + cbn [genSplit_loop]. exists m. split; [done|split; [done|]].
      by apply (count_loop_0 sep k).
    + assert (Index rest sep <> None) as Hr.
      { rewrite <- (count_loop_0 sep k); [lia|done..]. }
      cbn [genSplit_loop]. destruct (Index rest sep) as [m'|] eqn:Er; [|done].
      destruct (genSplit_loop_cons c (strFrom (m' + String.length sep) rest) sep
                  (String.length sep)) as (x & xs & ->).
      right. exists m. split; [done|]. fold rest. by rewrite Er.
  - assert (count_loop (String.length s) s sep = 0%nat) as ->
      by (by apply count_loop_0).
    simpl. by left.
Qed.

End StringFacts.

(** ** The effect log *)

Definition isWrite (e : Effect) : Prop :=
  match e with
  | Stdout _ | Stderr _ => True
  | _ => False
  end.

Lemma outFunc_writes wt ts out err : Forall isWrite (outFunc wt ts out err).
Proof.
  unfold outFunc. apply Forall_app. split; case_match; repeat constructor.
Qed.

Lemma callback_writes wt ev s s' :
  callback wt ev s = Some s' -> Forall isWrite (written s) -> Forall isWrite (written s').
Proof.
  destruct ev; simpl; unfold send; intros H Hs; repeat case_match; simplify_eq; simpl;
    try done; apply Forall_app; split; auto using outFunc_writes.
  repeat constructor.
Qed.

Lemma waitExit_writes wt n : forall s,
  Forall isWrite (written s) -> Forall isWrite (written (waitExit wt n s)).
Proof.
  induction n as [|n IH]; intros s Hs; simpl.
  - unfold receive. by repeat case_match; simplify_eq.
  - unfold receive, deliver. repeat case_match; simplify_eq; simpl; try done.
    apply IH. eapply callback_writes; eauto.
Qed.

Lemma streamed_writes wt n evs e :
  In e (written (waitExit wt n (streaming evs))) -> isWrite e.
Proof.
  intros H. assert (Forall isWrite (written (waitExit wt n (streaming evs)))) as Hw
    by (apply waitExit_writes; constructor).
  rewrite Forall_forall in Hw. by apply Hw, list_elem_of_In.
Qed.

Ltac act_unfold :=
  unfold helpFlow, orExit, exitError, call, stop, mbind, act_bind, mret, act_ret,
    effects, outcome in *.

Lemma Action_post_timeout Quote v a url body :
  In (Post url body) (effects (Action Quote v a)) -> ExecArgs.CmdTimeout body = 60%Z.
Proof.
  unfold Action. act_unfold.
  repeat (case_match; simplify_eq; simpl in * ); intros H;
    repeat (destruct H as [H|H]; simplify_eq; try done).
  all: first [done | by apply streamed_writes in H].
Qed.

(** ** The session after submission *)

Section Streaming.

Variable wt : bool.

Lemma eqb_empty_decide (x : string) {A} (a b : A) :
  (if negb (String.eqb x EmptyString) then a else b)
  = if decide (x = EmptyString) then b else a.
Proof.
  destruct (String.eqb_spec x EmptyString); by case_decide.
Qed.

Lemma outFunc_chunks ts out err :
  outFunc wt ts out err = chunks wt (ExecOutMsg ts out err).
Proof.
  unfold outFunc, chunks, stamp. rewrite !eqb_empty_decide. by destruct wt.
Qed.

Lemma callback_inv ev s s' :
  callback wt ev s = Some s' ->
  incoming s' = incoming s /\ written s' = written s ++ chunks wt ev.
Proof.
  destruct ev; unfold callback, send; intros H;
    try (case_decide; [|done]); simplify_eq; simpl;
    by rewrite ?app_nil_r, ?outFunc_chunks.
Qed.

Lemma deliver_inv s s' :
  deliver wt s = Some s' ->
  exists ev, incoming s = ev :: incoming s' /\ written s' = written s ++ chunks wt ev.
Proof.
  unfold deliver. destruct (incoming s) as [|ev evs] eqn:E; [done|].
  intros [H1 H2]%callback_inv. exists ev. by rewrite H1, H2.
Qed.

Lemma receive_inv s s' :
  receive s = Some s' -> incoming s' = incoming s /\ written s' = written s.
Proof. unfold receive. intros H; case_match; by simplify_eq. Qed.

Lemma steps_written s s' :
  rtc (step wt) s s' ->
  exists delivered,
    incoming s = delivered ++ incoming s'
    /\ written s' = written s ++ concat (chunks wt <$> delivered).
Proof.
  induction 1 as [s|s1 s2 s3 Hstep _ (rest & Hin & Hw)].
  - exists []. by rewrite app_nil_r.
  - destruct Hstep as [_ (ev & Hi & Ho)%deliver_inv|_ [Hi Ho]%receive_inv].
    + exists (ev :: rest). rewrite Hi, Hin, Hw, Ho. simpl. by rewrite <- app_assoc.
    + exists rest. by rewrite <- Hi, Hin, Hw, Ho.
Qed.

(** The action's schedule is one of the runs of the session. *)
Lemma waitExit_steps n : forall s,
  returned s = None -> rtc (step wt) s (waitExit wt n s).
Proof.
  induction n as [|n IH]; intros s Hs; simpl.
  - destruct (receive s) as [s'|] eqn:E; [|done].
    by apply rtc_once, step_receive.
  - destruct (receive s) as [s'|] eqn:E; [by apply rtc_once, step_receive|].
    destruct (deliver wt s) as [s'|] eqn:E'; [|done].
    eapply rtc_l; [by apply step_deliver|]. apply IH.
    unfold deliver in E'. destruct (incoming s); [done|].
    destruct e; simpl in E'; unfold send in E'; repeat case_match; by simplify_eq.
Qed.

Lemma step_carries r s s' : step wt s s' -> carries r s -> carries r s'.
Proof.
  unfold carries.
  intros [Hr Hd|Hr Hd] [(_ & Hc & Hf)|[(_ & Hc)|Hret]]; try congruence;
    unfold deliver, receive in Hd; rewrite Hc in Hd; simplify_eq; simpl;
    [| |by right; right].
  - destruct (incoming s) as [|[]]; simpl in *; unfold send in *; simpl in *;
      repeat case_decide; simpl in *; try lia; simplify_eq; simpl; eauto.
  - destruct (incoming s) as [|[]]; simpl in *; unfold send in *; simpl in *;
      repeat case_decide; simpl in *; try lia; simplify_eq; simpl; eauto.
Qed.

Lemma steps_carries r s s' : rtc (step wt) s s' -> carries r s -> carries r s'.
Proof. induction 1; eauto using step_carries. Qed.

Lemma firstSignal_app pre ev post r :
  Forall (fun e => terminal e = false) pre -> signalOf ev = Some r ->
  firstSignal (pre ++ ev :: post) = Some r.
Proof.
  intros Hpre Hev. induction Hpre as [|e pre He _ IH]; simpl; [by rewrite Hev|].
  by destruct e.
Qed.

(** Whatever the interleaving, the action can only return the result
    of the first terminal signal. *)
Lemma returns_first s s' r x :
  returned s = None -> exitChan s = [] -> firstSignal (incoming s) = Some r ->
  rtc (step wt) s s' -> returned s' = Some x -> x = exitOf r.
Proof.
  intros Hr Hc Hf Hsteps Hx.
  destruct (steps_carries r s s' Hsteps) as [(? & _)|[(? & _)|?]]; try congruence.
  by left.
Qed.

(** ... and the action's schedule does return it. *)
Lemma waitExit_returns n : forall s r,
  returned s = None -> exitChan s = [] -> firstSignal (incoming s) = Some r ->
  (length (incoming s) <= n)%nat ->
  returned (waitExit wt n s) = Some (exitOf r).
Proof.
  induction n as [|n IH]; intros s r Hr Hc Hf Hn.
  - destruct (incoming s); simpl in *; [done|lia].
  - simpl. unfold receive, deliver. rewrite Hc.
    destruct (incoming s) as [|ev evs] eqn:E; [done|]. simpl in Hf, Hn.
    destruct ev; simpl in *; unfold send; simpl; rewrite ?Hc; simpl; simplify_eq.
    + by apply IH; simpl; try lia.
    + by destruct n.
    + by apply IH; simpl; try lia.
    + by destruct n.
Qed.

End Streaming.

Lemma Action_streaming Quote v a url body :
  In (Post url body) (effects (Action Quote v a)) -> post a body = None ->
  outcome (Action Quote v a)
  = match returned (waitExit (withTimestamp v) (length (events a)) (streaming (events a))) with
    | Some e => inl e
    | None => inr tt
    end.
Proof.
  unfold Action. act_unfold.
  repeat (case_match; simplify_eq; simpl in * ); intros Hin Hp;
    repeat (destruct Hin as [Hin|Hin]; simplify_eq; try done).
  all: first [done | by apply streamed_writes in Hin].
Qed.

Lemma HandleExitCoder_outcome m : outcome (HandleExitCoder m) = outcome m.
Proof. by destruct m as [t [[]|]]. Qed.

Lemma HandleExitCoder_message m message c :
  outcome m = inl (ExitError message c) -> message <> EmptyString ->
  last (effects (HandleExitCoder m)) = Some (Stderr (message +:+ nl)).
Proof.
  destruct m as [t r]. unfold outcome, effects. simpl. intros -> Hne.
  apply String.eqb_neq in Hne. simpl. rewrite Hne. apply last_snoc.
Qed.

(** C1. In a session that is streaming (the action waits, the channel
    is empty) and whose first terminal signal is the exit event
    [{code, error}], the action can return nothing but
    [cli.NewExitError(error text, code)], whatever the interleaving of
    callbacks and receive, and it does return it; when the first
    terminal signal is a disconnection with [error], the same holds with
    code 2 and the error's text.  [app.Run] then exits the process with
    that very code, after the error text, when there is one, has gone
    to the standard error stream as the last thing written. *)
Theorem C1_terminal_outcome (wt : bool) (s : Session) (before rest : list Event) :
  returned s = None -> exitChan s = [] ->
  Forall (fun e => terminal e = false) before ->
  (forall err c, incoming s = before ++ ExecExitMsg err c :: rest ->
     (forall s' x, rtc (step wt) s s' -> returned s' = Some x ->
                   x = ExitError (errText err) c)
     /\ (exists s', rtc (step wt) s s' /\ returned s' = Some (ExitError (errText err) c)))
  /\ (forall err, incoming s = before ++ EvDisconnection err :: rest ->
     (forall s' x, rtc (step wt) s s' -> returned s' = Some x ->
                   x = ExitError (errText err) 2)
     /\ (exists s', rtc (step wt) s s' /\ returned s' = Some (ExitError (errText err) 2)))
  /\ (forall Quote v a url body r,
        In (Post url body) (effects (Action Quote v a)) -> post a body = None ->
        firstSignal (events a) = Some r ->
        outcome (HandleExitCoder (Action Quote v a))
        = inl (ExitError (errText (error r)) (code r))
        /\ (errText (error r) <> EmptyString ->
            last (effects (HandleExitCoder (Action Quote v a)))
            = Some (Stderr (errText (error r) +:+ nl)))).
Proof.
  intros Hr Hc Hbefore.
  assert (forall ev r, signalOf ev = Some r -> incoming s = before ++ ev :: rest ->
            (forall s' x, rtc (step wt) s s' -> returned s' = Some x -> x = exitOf r)
            /\ (exists s', rtc (step wt) s s' /\ returned s' = Some (exitOf r))) as Hgen.
  { intros ev r Hev Hin.
    assert (firstSignal (incoming s) = Some r) as Hf
      by (rewrite Hin; by apply firstSignal_app).
    split; [intros s' x; by apply returns_first|].
    exists (waitExit wt (length (incoming s)) s). split.
    - by apply waitExit_steps.
    - by apply waitExit_returns. }
  split; [|split].
  - intros err c. by apply (Hgen (ExecExitMsg err c) {| error := err; code := c |}).
  - intros err. by apply (Hgen (EvDisconnection err) {| error := err; code := 2 |}).
  - intros Quote v a url body r Hpost Hok Hf.
    assert (outcome (Action Quote v a) = inl (exitOf r)) as Hout.
    { rewrite (Action_streaming _ _ _ _ _ Hpost Hok).
      by rewrite (waitExit_returns _ _ _ r). }
    split; [by rewrite HandleExitCoder_outcome|].
    by apply (HandleExitCoder_message _ _ (code r)).
Qed.

(** C8. [outFunc] writes the stdout chunk exactly when it is not empty
    and the stderr chunk exactly when it is not empty, each after the
    timestamp prefix when and only when the timestamp flag is set; and
    in every run of a session the writes are those of the signals
    delivered so far, in their order of arrival, nothing held back. *)
Theorem C8_output_as_it_arrives (wt : bool) :
  (forall ts out err,
     outFunc wt ts out err
     = (if decide (out = EmptyString) then [] else [Stdout (stamp wt ts +:+ out)])
       ++ (if decide (err = EmptyString) then [] else [Stderr (stamp wt ts +:+ err)]))
  /\ (forall s s', rtc (step wt) s s' ->
        exists delivered,
          incoming s = delivered ++ incoming s'
          /\ written s' = written s ++ concat (chunks wt <$> delivered)).
Proof.
  split; [apply outFunc_chunks | apply steps_written].
Qed.

(** ** The relative path *)

Lemma normRoot_nonempty cp : normRoot cp <> EmptyString.
Proof.
  unfold normRoot. destruct (HasPrefix cp "/") eqn:E; [|done].
  apply HasPrefix_spec in E as [r ->]. done.
Qed.

Lemma autoRPath_eq cwd cp :
  autoRPath cwd cp
  = match Index cwd (normRoot cp) with
    | None => None
    | Some m =>
        let rest := strFrom (m + String.length (normRoot cp)) cwd in
        match Index rest (normRoot cp) with
        | None => Some (Trim rest "/")
        | Some _ => None
        end
    end.
Proof.
  pose proof (SplitAfter_two cwd (normRoot cp) (normRoot_nonempty cp)) as H.
  unfold autoRPath.
  replace (if negb (HasPrefix cp "/") then "/" +:+ cp else cp) with (normRoot cp)
    by (unfold normRoot; by destruct (HasPrefix cp "/")).
  destruct (SplitAfter cwd (normRoot cp)) as [|x0 [|x1 [|x2 xs]]].
  - destruct H as [->|(m & -> & Hm)]; [done|]. simpl. by destruct (Index _ _).
  - destruct H as [->|(m & -> & Hm)]; [done|]. simpl. by destruct (Index _ _).
  - destruct H as (m & -> & -> & Hm). simpl. by rewrite Hm.
  - destruct H as [->|(m & -> & Hm)]; [done|]. simpl. by destruct (Index _ _).
Qed.

(** C4 (as amended).  With no relative path given, a project found and
    the working directory known: when the client root (made to begin
    with a slash) does not occur in the working directory the relative
    path stays as it was, empty; when it occurs, and not again after its
    first occurrence, the relative path is what follows that occurrence
    with leading and trailing slashes trimmed; when it occurs again
    after its first occurrence the relative path stays empty. *)
Theorem C4_inferred_path (v : Vars) (a : Agent) (project : ProjectConfig.t) (cwd : string) :
  rPath v = EmptyString -> getwd a = inr cwd ->
  ((forall j, ~ occursAt (normRoot (ProjectConfig.ClientPath project)) cwd j) ->
     setupRPath v a (Some project) = EmptyString)
  /\ (forall l r,
        cwd = l +:+ normRoot (ProjectConfig.ClientPath project) +:+ r ->
        (forall j, (j < String.length l)%nat ->
                   ~ occursAt (normRoot (ProjectConfig.ClientPath project)) cwd j) ->
        ((forall j, ~ occursAt (normRoot (ProjectConfig.ClientPath project)) r j) ->
           setupRPath v a (Some project) = Trim r "/")
        /\ ((exists j, occursAt (normRoot (ProjectConfig.ClientPath project)) r j) ->
           setupRPath v a (Some project) = EmptyString)).
Proof.
  intros Hr Hwd. unfold setupRPath. rewrite Hr, Hwd. simpl.
  rewrite autoRPath_eq. set (root := normRoot _). split.
  - intros Hno. destruct (Index cwd root) as [m|] eqn:E; [|done].
    by destruct (Hno m), (Index_Some _ _ _ E).
  - intros l r Hcwd Hfirst.
    assert (Index cwd root = Some (String.length l)) as ->.
    { apply Index_first; [|done]. by exists l, r. }
    assert (strFrom (String.length l + String.length root) cwd = r) as ->.
    { by rewrite Hcwd, <- app_assoc_s, <- length_app_s, strFrom_app. }
    simpl. split.
    + intros Hno. destruct (Index r root) as [m|] eqn:E; [|done].
      by destruct (Hno m), (Index_Some _ _ _ E).
    + intros [j Hj]. destruct (Index r root) as [m|] eqn:E; [done|].
      by destruct (Index_None _ _ E j).
Qed.

(** ** The split of the command line *)

Lemma outcome_bind {A B} (m : Act A) (f : A -> Act B) :
  outcome (m ≫= f)
  = match outcome m with
    | inl e => inl e
    | inr x => outcome (f x)
    end.
Proof. destruct m as [t [e|x]]; simpl; [done|]. by destruct (f x). Qed.

Lemma bind_mret {A B} (x : A) (f : A -> Act B) : mret x ≫= f = f x.
Proof. unfold mbind, act_bind, mret, act_ret. by destruct (f x). Qed.

Lemma copy_firstn (dst src : list string) :
  (length src <= length dst)%nat -> copy dst src = src ++ skipn (length src) dst.
Proof. intros H. unfold copy. by rewrite firstn_all2. Qed.

Section Split.

Variable fs : FileSys.
Variable osArgs : list string.

Lemma sourceConfig_keeps idx v e v' e' :
  outcome (sourceConfig fs osArgs idx (v, e)) = inr (v', e') ->
  args v' = args v /\ argsCommand v' = argsCommand v.
Proof.
  unfold sourceConfig, exitError. rewrite ?outcome_bind.
  repeat (case_match; simpl; rewrite ?outcome_bind; simpl); intros; by simplify_eq.
Qed.

(** What the loop leaves in [args] and [argsCommand] when it ends. *)
Lemma scanArgs_split : forall rest idx v e v' e',
  outcome (scanArgs fs osArgs idx rest (v, e)) = inr (v', e') ->
  (forall pre post, rest = pre ++ "--" :: post -> "--" ∉ pre ->
     args v' = copy (args v) (firstn (idx + length pre + 1) osArgs)
     /\ argsCommand v'
        = copy (argsCommand v) (skipn (idx + length pre + 2) osArgs))
  /\ ("--" ∉ rest -> args v' = copy (args v) osArgs /\ argsCommand v' = argsCommand v).
Proof.
  induction rest as [|a rest IH]; intros idx v e v' e'; cbn [scanArgs].
  - intros [= <- <-]. split.
    + intros pre post Hp. by destruct pre.
    + done.
  - rewrite outcome_bind.
    match goal with
    | |- context [match outcome ?m with _ => _ end] =>
        destruct (outcome m) as [?|[v1 e1]] eqn:E1; [done|]
    end.
    assert (args v1 = args v /\ argsCommand v1 = argsCommand v) as [Ha Hc].
    { destruct (_ || _); [by eapply sourceConfig_keeps|]. cbv in E1. by simplify_eq. }
    destruct (String.eqb_spec a "--") as [->|Hne]; simpl.
    + intros [= <- <-]. simpl. rewrite Ha, Hc. split.
      * intros [|b pre] post Hpre Hnot; simplify_eq/=.
        -- by rewrite !Nat.add_0_r.
        -- by destruct Hnot; left.
      * intros Hnot. by destruct Hnot; left.
    + intros Hrun. destruct (IH _ _ _ _ _ Hrun) as [IH1 IH2].
      rewrite <- Ha, <- Hc. split.
      * intros [|b pre] post Hpre Hnot; simplify_eq/=.
        destruct (IH1 pre post eq_refl) as [-> ->].
        { intros ?. apply Hnot. by right. }
        split; f_equal; f_equal; lia.
      * intros Hnot. apply IH2. intros ?. apply Hnot. by right.
Qed.

(** Without a config token before the separator the loop ends
    normally, the environment untouched. *)
Lemma scanArgs_returns_sep post : forall pre idx v e,
  Forall (fun a => isConfigToken a = false) pre ->
  exists v', scanArgs fs osArgs idx (pre ++ "--" :: post) (v, e) = ([], inr (v', e)).
Proof.
  induction pre as [|a pre IH]; intros idx v e Hcfg; cbn [scanArgs app]; [by eauto|].
  inversion_clear Hcfg as [|?? Ha Hrest]. unfold isConfigToken in Ha. rewrite Ha.
  destruct (String.eqb_spec a "--") as [->|Hne]; [by eauto|].
  destruct (IH (S idx) v e Hrest) as [v' Hv']. exists v'.
  by rewrite bind_mret.
Qed.

Lemma scanArgs_returns : forall rest idx v e,
  Forall (fun a => isConfigToken a = false) rest ->
  exists v', scanArgs fs osArgs idx rest (v, e) = ([], inr (v', e)).
Proof.
  induction rest as [|a rest IH]; intros idx v e Hcfg; cbn [scanArgs]; [by eauto|].
  inversion_clear Hcfg as [|?? Ha Hrest]. unfold isConfigToken in Ha. rewrite Ha.
  destruct (String.eqb_spec a "--") as [->|Hne]; [by eauto|].
  destruct (IH (S idx) v e Hrest) as [v' Hv']. exists v'.
  by rewrite bind_mret.
Qed.

End Split.

Lemma copy_padded (src : list string) (n : nat) (dst : list string) :
  length dst = n -> (length src <= n)%nat ->
  dst = replicate n EmptyString \/
    (exists a, src !! 0%nat = Some a /\ dst = a :: replicate (n - 1) EmptyString) ->
  copy dst src = src ++ replicate (n - length src) EmptyString.
Proof.
  intros Hn Hle Hdst. rewrite copy_firstn by lia. f_equal.
  destruct Hdst as [->|(a & Ha & ->)]; [by rewrite drop_replicate|].
  destruct src as [|b src]; simplify_eq/=.
  rewrite drop_replicate. f_equal. lia.
Qed.

Lemma split_without_separator fs arg0 tail environ :
  Base arg0 <> AppNativeName -> "--" ∉ tail ->
  (forall v e, outcome (splitArgs fs (arg0 :: tail) environ) = inr (v, e) ->
     args v = arg0 :: tail
     /\ argsCommand v = replicate (length (arg0 :: tail)) EmptyString)
  /\ (Forall (fun a => isConfigToken a = false) tail ->
      exists v, splitArgs fs (arg0 :: tail) environ = ([], inr (v, environ))).
Proof.
  intros Hexe Hno. unfold splitArgs.
  apply String.eqb_neq in Hexe. rewrite Hexe. cbn [negb].
  set (v0 := initVars (arg0 :: tail) arg0).
  assert (args v0 = arg0 :: replicate (length tail) EmptyString) as Hargs by done.
  assert (argsCommand v0 = replicate (S (length tail)) EmptyString) as Hcmd by done.
  split; [|by apply scanArgs_returns].
  intros v e Hrun.
  destruct (scanArgs_split _ _ _ _ _ _ _ _ Hrun) as [_ H].
  destruct (H Hno) as [-> ->]. rewrite Hargs, Hcmd. split; [|done].
  rewrite (copy_padded _ (S (length tail))).
  - by rewrite Nat.sub_diag, app_nil_r.
  - simpl. by rewrite length_replicate.
  - done.
  - right. exists arg0. split; [done|]. simpl. by rewrite Nat.sub_0_r.
Qed.

(** C2 (as amended).  Not run under the native name, with the first
    token [--] after the program name at index [k] of [os.Args]: when
    the split ends, the wrapper arguments are [os.Args[0:k]] followed by
    [len(os.Args) - k] empty strings and the native command line is
    [os.Args[k+1:]] followed by [k+1] empty strings; with no such token
    the wrapper arguments are [os.Args] and the native command line is
    [len(os.Args)] empty strings.  The split does end, and leaves the
    environment alone, when no [-c] or [--config] token stands before
    the separator. *)
Theorem C2_split_with_padding (fs : FileSys) (arg0 : string) (tail : list string)
    (environ : gmap string string) :
  Base arg0 <> AppNativeName ->
  (forall pre post, tail = pre ++ "--" :: post -> "--" ∉ pre ->
     (forall v e, outcome (splitArgs fs (arg0 :: tail) environ) = inr (v, e) ->
        args v = firstn (S (length pre)) (arg0 :: tail)
                 ++ replicate (length (arg0 :: tail) - S (length pre)) EmptyString
        /\ argsCommand v = skipn (S (S (length pre))) (arg0 :: tail)
                           ++ replicate (S (S (length pre))) EmptyString)
     /\ (Forall (fun a => isConfigToken a = false) pre ->
         exists v, splitArgs fs (arg0 :: tail) environ = ([], inr (v, environ))))
  /\ ("--" ∉ tail ->
     (forall v e, outcome (splitArgs fs (arg0 :: tail) environ) = inr (v, e) ->
        args v = arg0 :: tail
        /\ argsCommand v = replicate (length (arg0 :: tail)) EmptyString)
     /\ (Forall (fun a => isConfigToken a = false) tail ->
         exists v, splitArgs fs (arg0 :: tail) environ = ([], inr (v, environ)))).
Proof.
  intros Hexe. split; [|intros Hno; by apply split_without_separator].
  intros pre post -> Hpre. unfold splitArgs.
  apply String.eqb_neq in Hexe. rewrite Hexe. cbn [negb].
  set (v0 := initVars (arg0 :: pre ++ "--" :: post) arg0).
  assert (args v0 = arg0 :: replicate (length (pre ++ "--" :: post)) EmptyString)
    as Hargs by done.
  assert (argsCommand v0 = replicate (S (length (pre ++ "--" :: post))) EmptyString)
    as Hcmd by done.
  split; [|by apply scanArgs_returns_sep].
  intros v e Hrun.
  destruct (scanArgs_split _ _ _ _ _ _ _ _ Hrun) as [H _].
  destruct (H pre post eq_refl Hpre) as [-> ->]. clear H Hrun.
  rewrite Hargs, Hcmd. cbn [Nat.add].
  replace (length pre + 1)%nat with (S (length pre)) by lia.
  replace (length pre + 2)%nat with (S (S (length pre))) by lia.
  assert (length (pre ++ "--" :: post) = (length pre + S (length post))%nat) as Hlen
    by (by rewrite length_app).
  split.
  - rewrite (copy_padded _ (S (length (pre ++ "--" :: post)))).
    + f_equal. f_equal. rewrite length_take. simpl. lia.
    + simpl. by rewrite length_replicate.
    + rewrite length_take. simpl. lia.
    + right. exists arg0. split; [done|]. simpl. by rewrite Nat.sub_0_r.
  - rewrite (copy_padded _ (S (length (pre ++ "--" :: post)))).
    + f_equal. f_equal. rewrite length_drop. simpl. lia.
    + by rewrite length_replicate.
    + rewrite length_drop. simpl. lia.
    + by left.
Qed.

(** C2 as stated fails: the slices keep the length of [os.Args].  For
    [xds-exec -- make] the wrapper arguments are not [os.Args[0:1]], and
    for [xds-exec] alone the native command line is not empty. *)
Lemma C2_split_is_padded :
  ~ (forall fs osArgs environ k v e,
       Base (List.hd EmptyString osArgs) <> AppNativeName ->
       osArgs !! k = Some "--" ->
       (forall j, (j < k)%nat -> osArgs !! j <> Some "--") ->
       outcome (splitArgs fs osArgs environ) = inr (v, e) ->
       args v = firstn k osArgs /\ argsCommand v = skipn (S k) osArgs)
  /\ ~ (forall fs osArgs environ v e,
       Base (List.hd EmptyString osArgs) <> AppNativeName ->
       "--" ∉ osArgs ->
       outcome (splitArgs fs osArgs environ) = inr (v, e) ->
       argsCommand v = []).
Proof.
  split.
  - intros H.
    destruct (H {| fileExists := fun _ => false; dotenv := fun _ => None |}
                ["xds-exec"; "--"; "make"] ∅ 1%nat _ _
                ltac:(done) eq_refl
                ltac:(intros [|j] Hj; [done|lia]) eq_refl) as [Ha _].
    discriminate Ha.
  - intros H.
    specialize (H {| fileExists := fun _ => false; dotenv := fun _ => None |}
                  ["xds-exec"] ∅ _ _ ltac:(done)
                  ltac:(by intros ?%list_elem_of_singleton) eq_refl).
    discriminate H.
Qed.

(** ** The precedence of the configuration sources *)

Lemma foldl_overlay (ms : list (gmap string string)) : forall (layer e : gmap string string),
  foldl (fun layer m => m ∪ layer) (layer ∪ e) ms
  = foldl (fun layer m => m ∪ layer) layer ms ∪ e.
Proof.
  induction ms as [|m ms IH]; intros layer e; simpl; [done|].
  by rewrite <- IH, (assoc_L (∪)).
Qed.

Lemma sourceConfig_environ fs osArgs idx v e v' e' :
  outcome (sourceConfig fs osArgs idx (v, e)) = inr (v', e') ->
  e' = foldl (fun layer m => m ∪ layer) e
         match osArgs !! (idx + 2)%nat with
         | Some f =>
             if String.eqb f EmptyString then []
             else match dotenv fs f with Some m => [m] | None => [] end
         | None => []
         end.
Proof.
  unfold sourceConfig, exitError. rewrite ?outcome_bind.
  repeat (case_match; simpl; rewrite ?outcome_bind; simpl); intros; by simplify_eq.
Qed.

Lemma scanArgs_environ fs osArgs : forall rest idx v e v' e',
  outcome (scanArgs fs osArgs idx rest (v, e)) = inr (v', e') ->
  e' = foldl (fun layer m => m ∪ layer) e (sourced fs osArgs idx rest).
Proof.
  induction rest as [|a rest IH]; intros idx v e v' e'; cbn [scanArgs sourced].
  - by intros [= <- <-].
  - rewrite outcome_bind. fold (isConfigToken a).
    match goal with
    | |- context [match outcome ?m with _ => _ end] =>
        destruct (outcome m) as [?|[v1 e1]] eqn:E1; [done|]
    end.
    rewrite foldl_app.
    assert (e1 = foldl (fun layer m => m ∪ layer) e
                   (if isConfigToken a
                    then match osArgs !! (idx + 2)%nat with
                         | Some f =>
                             if String.eqb f EmptyString then []
                             else match dotenv fs f with Some m => [m] | None => [] end
                         | None => []
                         end
                    else [])) as <-.
    { destruct (isConfigToken a); [by eapply sourceConfig_environ|].
      cbv in E1. by simplify_eq. }
    destruct (String.eqb a "--"); [by intros [= <- <-]|]. apply IH.
Qed.

Lemma splitArgs_environ fs osArgs environ v environ' :
  outcome (splitArgs fs osArgs environ) = inr (v, environ') ->
  environ' = fileLayer fs osArgs ∪ environ.
Proof.
  unfold splitArgs, fileLayer. destruct osArgs as [|arg0 tail]; [done|].
  destruct (negb _).
  - intros ->%scanArgs_environ.
    by rewrite <- foldl_overlay, (left_id_L ∅ (∪)).
  - intros [= <- <-]. by rewrite (left_id_L ∅ (∪)).
Qed.

(** C3 (as amended).  When the split ends, the environment the flags
    are read against is the pairs of the sourced config files laid over
    the process environment.  For every string parameter: a value given
    on the command line is the one chosen; else the file's value for the
    parameter's variable, when it has a non-empty one; else, when the
    file does not name the variable, the environment's non-empty value;
    else, when neither names it, the default.  A variable the file sets
    to the empty string hides the environment's value: the result is the
    empty string or the default, as the library reads an empty
    variable. *)
Theorem C3_precedence (emptyIsSet : bool) (fs : FileSys) (osArgs : list string)
    (environ : gmap string string) (cl : CmdLine) (v : Vars)
    (environ' : gmap string string) :
  outcome (splitArgs fs osArgs environ) = inr (v, environ') ->
  environ' = fileLayer fs osArgs ∪ environ
  /\ forall f given dest, (f, given, dest) ∈ stringParams ->
       (forall x, given cl = Some x ->
                  dest (parseFlags emptyIsSet cl environ' v) = x)
       /\ (forall x, given cl = None ->
                     fileLayer fs osArgs !! EnvVar f = Some x -> x <> EmptyString ->
                     dest (parseFlags emptyIsSet cl environ' v) = x)
       /\ (forall x, given cl = None ->
                     fileLayer fs osArgs !! EnvVar f = None ->
                     environ !! EnvVar f = Some x -> x <> EmptyString ->
                     dest (parseFlags emptyIsSet cl environ' v) = x)
       /\ (given cl = None ->
           fileLayer fs osArgs !! EnvVar f = None -> environ !! EnvVar f = None ->
           dest (parseFlags emptyIsSet cl environ' v) = Value f)
       /\ (given cl = None ->
           fileLayer fs osArgs !! EnvVar f = Some EmptyString ->
           dest (parseFlags emptyIsSet cl environ' v)
           = if emptyIsSet then EmptyString else Value f).
Proof.
  intros ->%splitArgs_environ. split; [done|].
  intros f given dest Hin.
  assert (dest (parseFlags emptyIsSet cl (fileLayer fs osArgs ∪ environ) v)
          = applyString emptyIsSet f (fileLayer fs osArgs ∪ environ) (given cl)) as ->.
  { unfold stringParams in Hin.
    repeat (apply elem_of_cons in Hin as [Hin|Hin]; [by simplify_eq|]).
    by apply elem_of_nil in Hin. }
  unfold applyString. repeat split.
  - by intros x ->.
  - intros x -> Hf Hx. rewrite (lookup_union_Some_l _ _ _ _ Hf).
    apply String.eqb_neq in Hx. by rewrite Hx.
  - intros x -> Hf He Hx. rewrite lookup_union_r, He by done.
    apply String.eqb_neq in Hx. by rewrite Hx.
  - intros -> Hf He. by rewrite lookup_union_r, He.
  - intros -> Hf. rewrite (lookup_union_Some_l _ _ _ _ Hf). by destruct emptyIsSet.
Qed.

(** ** The help outcome *)

Lemma app_empty_r s : s +:+ EmptyString = s.
Proof. induction s as [|c s IH]; [done|]. by rewrite app_cons, IH. Qed.

Lemma cat_nil : cat [] = EmptyString.
Proof. reflexivity. Qed.

Lemma cat_cons x xs : cat (x :: xs) = x +:+ cat xs.
Proof. destruct xs; [by rewrite cat_nil, app_empty_r|reflexivity]. Qed.

Ltac flatten_text :=
  repeat first [ rewrite cat_cons | rewrite cat_nil | rewrite app_assoc_s
               | rewrite app_empty_r | rewrite app_empty_l ].

Lemma Action_help Quote v a projects :
  listed v a projects -> prjID v = EmptyString \/ listProject v = true ->
  Action Quote v a
  = ([NewHTTPClient (baseURLOf (uri v)); Get "/version"; Get "/projects";
      Get "/servers/0/sdks"],
     match getSdks a with
     | inl err => inl (ExitError err 1)
     | inr sdks =>
         inl (ExitError (helpText Quote (listProject v) projects sdks)
                        (if listProject v then 0 else 1)%Z)
     end).
Proof.
  intros (Hlvl & Hcli & [version Hver] & Hprj) Hhelp.
  assert ((prjID v =? "")%string || listProject v = true) as Hcond.
  { destruct Hhelp as [->| ->]; [done|]. by rewrite orb_true_r. }
  unfold Action. rewrite Hlvl, Hcli, Hver, Hprj. act_unfold. rewrite Hcond.
  unfold helpText, helpNotice, projectsSection, sdksSection.
  destruct (getSdks a) as [err|sdks]; [by destruct (listProject v)|].
  destruct (listProject v), (errMar projects), (errMar sdks); cbn -[String.append cat exampleText];
    do 2 f_equal; by flatten_text.
Qed.

Lemma contains_refl x : contains x x.
Proof. exists EmptyString, EmptyString. by rewrite app_empty_r. Qed.

Lemma contains_app_l x a b : contains x a -> contains x (a +:+ b).
Proof. intros (l & r & ->). exists l, (r +:+ b). by rewrite !app_assoc_s. Qed.

Lemma contains_app_r x a b : contains x b -> contains x (a +:+ b).
Proof. intros (l & r & ->). exists (a +:+ l), r. by rewrite !app_assoc_s. Qed.

Lemma contains_cat_map {A} (f : A -> string) (x : A) (xs : list A) :
  x ∈ xs -> contains (f x) (cat (f <$> xs)).
Proof.
  induction 1 as [x xs|x y xs _ IH]; rewrite fmap_cons, cat_cons.
  - apply contains_app_l, contains_refl.
  - by apply contains_app_r.
Qed.

Lemma help_effects Quote v a e :
  prjID v = EmptyString \/ listProject v = true ->
  In e (effects (Action Quote v a)) ->
  match e with
  | NewHTTPClient _ | Get _ => True
  | _ => False
  end.
Proof.
  intros Hhelp.
  assert ((prjID v =? "")%string || listProject v = true) as Hcond.
  { destruct Hhelp as [->| ->]; [done|]. by rewrite orb_true_r. }
  unfold Action. act_unfold. rewrite Hcond.
  repeat (case_match; simplify_eq; simpl in * ); intros Hin;
    repeat (destruct Hin as [Hin|Hin]; simplify_eq; try done).
  all: done.
Qed.

(** C5 (as amended).  With an empty project ID or listing requested,
    the action never creates the socket client and never posts a
    request.  Once the project list has answered: if the SDK list
    answers too, the action returns the help message with code 0 when
    listing was requested and 1 otherwise, the message naming every
    project when the project payload decoded, every SDK when the SDK
    payload decoded, and the example command when both lists have an
    element; if the SDK call fails, the action returns the call's error
    with code 1. *)
Theorem C5_help_outcome (Quote : string -> string) (v : Vars) (a : Agent) :
  prjID v = EmptyString \/ listProject v = true ->
  (forall e, In e (effects (Action Quote v a)) ->
     match e with NewIOClient _ _ | Post _ _ => False | _ => True end)
  /\ (forall projects, listed v a projects ->
        (forall err, getSdks a = inl err ->
           outcome (Action Quote v a) = inl (ExitError err 1))
        /\ (forall sdks, getSdks a = inr sdks ->
              exists msg,
                outcome (Action Quote v a)
                = inl (ExitError msg (if listProject v then 0 else 1)%Z)
                /\ (errMar projects = None ->
                    forall p, p ∈ items projects -> contains (projectLine p) msg)
                /\ (errMar sdks = None ->
                    forall k, k ∈ items sdks -> contains (sdkLine k) msg)
                /\ (forall p0 ps k0 ks,
                      items projects = p0 :: ps -> items sdks = k0 :: ks ->
                      contains (cat ["  "; AppName; " --id "; Quote (ProjectConfig.ID p0);
                                     " --sdkid "; Quote (SDK.ID k0); " -- "]) msg))).
Proof.
  intros Hhelp. split.
  - intros e He. apply (help_effects _ _ _ _ Hhelp) in He. by destruct e.
  - intros projects Hl. rewrite (Action_help Quote v a projects Hl Hhelp). split.
    + by intros err ->.
    + intros sdks ->. eexists. split; [done|]. unfold helpText. repeat split.
      * intros Hp p Hin. apply contains_app_r, contains_app_l.
        unfold projectsSection. rewrite Hp.
        by apply contains_app_r, contains_app_l, contains_cat_map.
      * intros Hk k Hin. do 2 apply contains_app_r. apply contains_app_l.
        unfold sdksSection. rewrite Hk. by apply contains_app_r, contains_cat_map.
      * intros p0 ps k0 ks -> ->. do 3 apply contains_app_r.
        unfold exampleText. flatten_text. do 3 apply contains_app_r.
        exists EmptyString,
          (cat ["'mkdir build; cd build; cmake ..'"; nl; " or"; nl;
                "  XDS_PROJECT_ID="; Quote (ProjectConfig.ID p0);
                " XDS_SDK_ID="; Quote (SDK.ID k0); "  "; AppNativeName; " ";
                "'mkdir build; cd build; cmake ..'"; nl]).
        by flatten_text.
Qed.

(** C5 as stated fails: listing requested and the project list
    answered, but [GET /servers/0/sdks] failing, gives exit code 1. *)
Lemma C5_listing_can_exit_1 :
  ~ (forall Quote v a projects,
       listed v a projects -> prjID v = EmptyString \/ listProject v = true ->
       exists msg, outcome (Action Quote v a)
                   = inl (ExitError msg (if listProject v then 0 else 1)%Z)).
Proof.
  intros H.
  destruct (H quotePlain (varsOf EmptyString true [EmptyString; EmptyString]) agentNoSdks
              {| items := [project1]; errMar := None |}) as [msg Hmsg].
  - repeat split; try done. by eexists.
  - by right.
  - discriminate Hmsg.
Qed.

(** ** Failing listing calls *)

(** C7 (as amended).  In the help flow of a connected session, a
    listing payload that does not decode is not fatal: the action still
    returns the help message with the usual code, the section of that
    list left out of it.  A listing call that fails is fatal: the action
    returns the call's error with code 1 and no help message; after a
    failed project call the SDK list is not even asked for. *)
Theorem C7_listing_failures (Quote : string -> string) (v : Vars) (a : Agent) :
  prjID v = EmptyString \/ listProject v = true ->
  ParseLevel (logLevel v) = true ->
  newClient a (baseURLOf (uri v)) = None ->
  (exists version, getVersion a = inr version) ->
  (forall projects sdks, getProjects a = inr projects -> getSdks a = inr sdks ->
     outcome (Action Quote v a)
     = inl (ExitError (helpText Quote (listProject v) projects sdks)
                      (if listProject v then 0 else 1)%Z)
     /\ (errMar projects <> None -> projectsSection projects = EmptyString)
     /\ (errMar sdks <> None -> sdksSection sdks = EmptyString))
  /\ (forall err, getProjects a = inl err ->
        Action Quote v a
        = ([NewHTTPClient (baseURLOf (uri v)); Get "/version"; Get "/projects"],
           inl (ExitError err 1)))
  /\ (forall projects err, getProjects a = inr projects -> getSdks a = inl err ->
        outcome (Action Quote v a) = inl (ExitError err 1)).
Proof.
  intros Hhelp Hlvl Hcli [version Hver].
  assert (forall projects, getProjects a = inr projects -> listed v a projects) as Hl
    by (intros projects Hprj; repeat split; eauto).
  split; [|split].
  - intros projects sdks Hprj Hsdk.
    rewrite (Action_help Quote v a projects (Hl _ Hprj) Hhelp), Hsdk.
    split; [done|]. unfold projectsSection, sdksSection.
    by destruct (errMar projects), (errMar sdks).
  - intros err Hprj. unfold Action. by rewrite Hlvl, Hcli, Hver, Hprj.
  - intros projects err Hprj Hsdk.
    by rewrite (Action_help Quote v a projects (Hl _ Hprj) Hhelp), Hsdk.
Qed.

(** C7 as stated fails: in a connected session with listing requested,
    a failing [GET /projects] ends the action with code 1 and the error
    instead of the help outcome. *)
Lemma C7_failed_listing_is_fatal :
  ~ (forall Quote v a,
       prjID v = EmptyString \/ listProject v = true ->
       ParseLevel (logLevel v) = true ->
       newClient a (baseURLOf (uri v)) = None ->
       (exists version, getVersion a = inr version) ->
       exists msg, outcome (Action Quote v a)
                   = inl (ExitError msg (if listProject v then 0 else 1)%Z)
                   /\ In (Get "/servers/0/sdks") (effects (Action Quote v a))).
Proof.
  intros H.
  destruct (H quotePlain (varsOf EmptyString true [EmptyString]) agentNoProjects)
    as (msg & Hmsg & _); try done.
  - by right.
  - by eexists.
Qed.

(** ** What is submitted *)

Lemma Action_submit Quote v a projects cmd rest :
  listed v a projects -> prjID v <> EmptyString -> listProject v = false ->
  newIOClient a (baseURLOf (uri v)) = None -> argsCommand v = cmd :: rest ->
  exists body,
    In (Post "/exec" body) (effects (Action Quote v a))
    /\ ExecArgs.ID body = prjID v /\ ExecArgs.SdkID body = sdkid v
    /\ ExecArgs.Cmd body = Trim cmd " " /\ ExecArgs.Args body = rest.
Proof.
  intros (Hlvl & Hcli & [version Hver] & Hprj) Hid Hlist Hio Hcmd.
  apply String.eqb_neq in Hid.
  unfold Action. rewrite Hlvl, Hcli, Hver, Hprj, Hid, Hlist, Hio, Hcmd. act_unfold.
  exists {| ExecArgs.ID := prjID v; ExecArgs.SdkID := sdkid v;
            ExecArgs.Cmd := Trim cmd " "; ExecArgs.Args := rest;
            ExecArgs.Env := buildEnv (envMap v);
            ExecArgs.RPath := setupRPath v a (findProject (items projects) (prjID v));
            ExecArgs.CmdTimeout := 60 |}.
  split; [|done]. destruct (post a _); cbn -[waitExit Trim]; tauto.
Qed.

Lemma sourceConfig_writes fs osArgs idx st :
  Forall isWrite (effects (sourceConfig fs osArgs idx st)).
Proof.
  destruct st as [v e]. unfold sourceConfig, exitError. act_unfold.
  repeat case_match; simpl; repeat constructor.
Qed.

Lemma effects_bind {A B} (m : Act A) (f : A -> Act B) e :
  In e (effects (m ≫= f)) ->
  In e (effects m) \/ exists x, outcome m = inr x /\ In e (effects (f x)).
Proof.
  destruct m as [t [s|x]]; simpl; [by left|].
  unfold effects, outcome. simpl. destruct (f x) as [t' r] eqn:E. simpl.
  intros [?|?]%in_app_or; [by left|]. right. exists x. by rewrite E.
Qed.

Lemma scanArgs_writes fs osArgs : forall rest idx st e,
  In e (effects (scanArgs fs osArgs idx rest st)) -> isWrite e.
Proof.
  induction rest as [|a rest IH]; intros idx st e; cbn [scanArgs]; [done|].
  intros [He|(st' & _ & He)]%effects_bind.
  - destruct (_ || _); [|done].
    pose proof (sourceConfig_writes fs osArgs idx st) as Hw.
    rewrite Forall_forall in Hw. by apply Hw, list_elem_of_In.
  - destruct (String.eqb a "--"); [done|]. by eapply IH.
Qed.

Lemma main_effects Quote b fs osArgs environ cl a e :
  In e (effects (main Quote b fs osArgs environ cl a)) ->
  isWrite e
  \/ exists v environ', outcome (splitArgs fs osArgs environ) = inr (v, environ')
                        /\ In e (effects (Action Quote (parseFlags b cl environ' v) a)).
Proof.
  unfold main. intros [He|([v environ'] & Hsplit & He)]%effects_bind.
  - left. unfold splitArgs in He. destruct osArgs as [|arg0 tail]; [done|].
    destruct (negb _); [by eapply scanArgs_writes|done].
  - unfold HandleExitCoder in He. simpl in He.
    destruct (Action Quote _ a) as [t [[message c|what]|[]]] eqn:E; simpl in He.
    + apply in_app_or in He as [He|He]; [right; exists v, environ'; by rewrite E|].
      left. destruct (String.eqb message EmptyString); [done|].
      by destruct He as [<-|[]].
    + right. exists v, environ'. by rewrite E.
    + right. exists v, environ'. by rewrite E.
Qed.

Lemma main_after_split Quote b fs osArgs environ cl a v :
  splitArgs fs osArgs environ = ([], inr (v, environ)) ->
  main Quote b fs osArgs environ cl a
  = HandleExitCoder (Action Quote (parseFlags b cl environ v) a).
Proof.
  unfold main. intros ->.
  exact (bind_mret (v, environ)
           (fun st => HandleExitCoder (Action Quote (parseFlags b cl st.2 st.1) a))).
Qed.

Lemma HandleExitCoder_effects m e : In e (effects m) -> In e (effects (HandleExitCoder m)).
Proof.
  destruct m as [t [[message c|what]|[]]]; simpl; try done.
  intros He. apply in_or_app. by left.
Qed.

(** C10.  Whatever the command line, the environment, the config files
    and the agent, every request [main] posts has [CmdTimeout] 60. *)
Theorem C10_timeout_is_60 (Quote : string -> string) (emptyIsSet : bool) (fs : FileSys)
    (osArgs : list string) (environ : gmap string string) (cl : CmdLine) (a : Agent)
    (url : string) (body : ExecArgs.t) :
  In (Post url body) (effects (main Quote emptyIsSet fs osArgs environ cl a)) ->
  ExecArgs.CmdTimeout body = 60%Z.
Proof.
  intros [Hw|(v & environ' & _ & Hin)]%main_effects; [done|].
  by eapply Action_post_timeout.
Qed.

Lemma effects_bind_r {A B} (m : Act A) (f : A -> Act B) x e :
  outcome m = inr x -> In e (effects (f x)) -> In e (effects (m ≫= f)).
Proof.
  destruct m as [t [s|y]]; unfold outcome, effects; simpl; [done|]. intros [= ->].
  destruct (f x) as [t' r]. simpl. intros Hin. apply in_or_app. by right.
Qed.

(** C6 (as amended).  Not run under the native name and with no [--]
    token on the command line, whenever the split ends (it does when
    there is no config token) the arguments handed to the library are
    [os.Args] and the native command line is [len(os.Args)] empty
    strings.  The session does not treat this as an error: when the
    library runs the action on these arguments (no usage error, no help
    or version flag, no help command), with a non-empty project ID,
    listing not requested and the agent reached, [main] posts a request
    whose command is empty and whose arguments are [len(os.Args) - 1]
    empty strings.  With an empty project ID or listing requested no
    request is posted. *)
Theorem C6_empty_command_is_posted (Quote : string -> string) (emptyIsSet : bool)
    (fs : FileSys) (arg0 : string) (tail : list string)
    (environ : gmap string string) (cl : CmdLine) (a : Agent) :
  Base arg0 <> AppNativeName -> "--" ∉ tail ->
  (forall v0 e,
     outcome (splitArgs fs (arg0 :: tail) environ) = inr (v0, e) ->
     args v0 = arg0 :: tail
     /\ argsCommand v0 = replicate (S (length tail)) EmptyString
     /\ (readLine (args v0) e = Some cl ->
         forall projects,
           listed (parseFlags emptyIsSet cl e v0) a projects ->
           prjID (parseFlags emptyIsSet cl e v0) <> EmptyString ->
           listProject (parseFlags emptyIsSet cl e v0) = false ->
           newIOClient a (baseURLOf (uri (parseFlags emptyIsSet cl e v0))) = None ->
           exists body,
             In (Post "/exec" body)
                (effects (main Quote emptyIsSet fs (arg0 :: tail) environ cl a))
             /\ ExecArgs.Cmd body = EmptyString
             /\ ExecArgs.Args body = replicate (length tail) EmptyString)
     /\ (prjID (parseFlags emptyIsSet cl e v0) = EmptyString
         \/ listProject (parseFlags emptyIsSet cl e v0) = true ->
         forall url body,
           ~ In (Post url body)
                (effects (main Quote emptyIsSet fs (arg0 :: tail) environ cl a))))
  /\ (Forall (fun x => isConfigToken x = false) tail ->
      exists v0, splitArgs fs (arg0 :: tail) environ = ([], inr (v0, environ))).
Proof.
  intros Hexe Hno.
  destruct (split_without_separator fs arg0 tail environ Hexe Hno) as [Hsplit Hret].
  split; [|exact Hret].
  intros v0 e Hv0. destruct (Hsplit v0 e Hv0) as [Hargs Hcmd].
  split; [done|]. split; [done|]. split.
  - intros _ projects Hl Hid Hlist Hio.
    destruct (Action_submit Quote _ a projects EmptyString
                (replicate (length tail) EmptyString) Hl Hid Hlist Hio)
      as (body & Hin & _ & _ & Hc & Ha); [done|].
    exists body. split; [|done]. unfold main.
    apply (effects_bind_r _ _ (v0, e)); [done|]. by apply HandleExitCoder_effects.
  - intros Hhelp url body [Hw|(v & environ' & Hout & Hin)]%main_effects; [done|].
    rewrite Hv0 in Hout. injection Hout as <- <-.
    by apply (help_effects _ _ _ _ Hhelp) in Hin.
Qed.

(** C6 as stated fails: [xds-exec --id p1], with no separator, posts a
    request whose command is the empty string. *)
Lemma C6_empty_command_reaches_agent :
  ~ (forall Quote emptyIsSet fs osArgs environ cl a url body,
       In (Post url body) (effects (main Quote emptyIsSet fs osArgs environ cl a)) ->
       ExecArgs.Cmd body <> EmptyString).
Proof.
  intros H.
  apply (H quotePlain true noFiles ["xds-exec"; "--id"; "p1"] ∅ (idFlag "p1") agent1
           "/exec"
           {| ExecArgs.ID := "p1"; ExecArgs.SdkID := EmptyString;
              ExecArgs.Cmd := EmptyString; ExecArgs.Args := [EmptyString; EmptyString];
              ExecArgs.Env := []; ExecArgs.RPath := "src"; ExecArgs.CmdTimeout := 60 |});
    [|done].
  vm_compute. tauto.
Qed.

(** ** The agent URL *)

Lemma Action_urls Quote v a e :
  In e (effects (Action Quote v a)) ->
  match e with
  | NewHTTPClient u | NewIOClient u _ => u = baseURLOf (uri v)
  | _ => True
  end.
Proof.
  unfold Action. act_unfold.
  repeat (case_match; simplify_eq; simpl in * ); intros Hin;
    repeat (destruct Hin as [Hin|Hin]; simplify_eq; try done).
  all: first [done | by apply streamed_writes in Hin].
Qed.

(** C9 (as amended).  With no [--url] flag and [XDS_AGENT_URL] unset
    the configured URL is [localhost:8000], for which the base URL is
    [http://localhost:8000].  The base URL is the configured URL with
    [http://] put in front exactly when the configured URL does not
    begin with [http://], and the configured URL itself when it does.
    Both clients are created with this one base URL. *)
Theorem C9_base_url (Quote : string -> string) (emptyIsSet : bool) (cl : CmdLine)
    (environ : gmap string string) (v0 : Vars) (a : Agent) :
  (opt_url cl = None -> environ !! "XDS_AGENT_URL" = None ->
     uri (parseFlags emptyIsSet cl environ v0) = "localhost:8000")
  /\ baseURLOf "localhost:8000" = "http://localhost:8000"
  /\ (forall u, (HasPrefix u "http://" = false -> baseURLOf u = "http://" +:+ u)
                /\ (HasPrefix u "http://" = true -> baseURLOf u = u))
  /\ (forall v e, In e (effects (Action Quote v a)) ->
        match e with
        | NewHTTPClient u | NewIOClient u _ => u = baseURLOf (uri v)
        | _ => True
        end).
Proof.
  repeat split.
  - intros Hflag Henv. cbn [uri parseFlags]. unfold applyString. rewrite Hflag.
    cbn [EnvVar Value flag_url]. by rewrite Henv.
  - unfold baseURLOf. by intros ->.
  - unfold baseURLOf. by intros ->.
  - intros v e. apply Action_urls.
Qed.

(** C9 as stated fails: a URL with the scheme [https] is not used
    unchanged, [http://] is put in front of it. *)
Lemma C9_other_scheme_is_prefixed :
  ~ (forall scheme rest,
       scheme <> EmptyString ->
       baseURLOf (scheme +:+ "://" +:+ rest) = scheme +:+ "://" +:+ rest).
Proof.
  intros H. specialize (H "https" "agent:8000" ltac:(done)). discriminate H.
Qed.

(** ** The claims that fail, at a concrete input *)

(** C3 as stated fails: with the config file line [XDS_SDK_ID=] and
    [XDS_SDK_ID=abc] in the environment, the SDK ID chosen is not the
    environment's non-empty value, whichever way the library reads an
    empty variable. *)
Lemma C3_empty_file_value_hides_environment :
  ~ (forall fs osArgs environ cl v environ' f given dest,
       outcome (splitArgs fs osArgs environ) = inr (v, environ') ->
       (f, given, dest) ∈ stringParams ->
       dest (parseFlags true cl environ' v)
       = claimedValue (given cl) (fileLayer fs osArgs !! EnvVar f)
                      (environ !! EnvVar f) (Value f))
  /\ ~ (forall fs osArgs environ cl v environ' f given dest,
       outcome (splitArgs fs osArgs environ) = inr (v, environ') ->
       (f, given, dest) ∈ stringParams ->
       dest (parseFlags false cl environ' v)
       = claimedValue (given cl) (fileLayer fs osArgs !! EnvVar f)
                      (environ !! EnvVar f) (Value f)).
Proof.
  assert ((flag_sdkid, opt_sdkid, sdkid) ∈ stringParams) as Hin
    by (unfold stringParams; do 4 right; left).
  split; intros H;
    pose proof (H confFiles ["xds-exec"; "-c"; "conf"; "--"; "make"] sampleEnv
                  (configFlag "conf") _ _ flag_sdkid opt_sdkid sdkid eq_refl Hin) as H';
    vm_compute in H'; discriminate H'.
Qed.

(** C4 as stated fails: when the root occurs twice in the working
    directory, the text after its first occurrence is not taken; the
    relative path is left alone. *)
Lemma C4_first_match_is_not_used :
  ~ (forall cwd ClientPath l r,
       cwd = l +:+ normRoot ClientPath +:+ r ->
       (forall j, (j < String.length l)%nat -> ~ occursAt (normRoot ClientPath) cwd j) ->
       autoRPath cwd ClientPath = Some (Trim r "/")).
Proof.
  intros H.
  specialize (H "/home/u/proj/proj/src" "proj" "/home/u" "/proj/src" eq_refl).
  assert (autoRPath "/home/u/proj/proj/src" "proj" = Some (Trim "/proj/src" "/")) as H'.
  { apply H. by apply (Index_Some "/proj" "/home/u/proj/proj/src" 7). }
  vm_compute in H'. discriminate H'.
Qed.

(** ** The examples of the specification, run *)

Example infer_proj_src : autoRPath "/home/u/proj/src" "proj" = Some "src".
Proof. reflexivity. Qed.

Example infer_other : autoRPath "/home/u/other" "proj" = None.
Proof. reflexivity. Qed.

Example session_out1_err1 :
  main quotePlain true noFiles ["xds-exec"; "--id"; "p1"; "--"; "make"; "all"] ∅
       (idFlag "p1") agent1
  = ([NewHTTPClient "http://localhost:8000"; Get "/version"; Get "/projects";
      NewIOClient "http://localhost:8000" "sid";
      Post "/exec"
        {| ExecArgs.ID := "p1"; ExecArgs.SdkID := EmptyString; ExecArgs.Cmd := "make";
           ExecArgs.Args := ["all"; EmptyString; EmptyString; EmptyString; EmptyString];
           ExecArgs.Env := []; ExecArgs.RPath := "src"; ExecArgs.CmdTimeout := 60 |};
      Stdout "out1"; Stderr "err1"],
     inl (ExitError EmptyString 0)).
Proof. vm_compute. reflexivity. Qed.

Example session_boom :
  outcome (main quotePlain true noFiles ["xds-exec"; "--id"; "p1"; "--"; "make"] ∅
             (idFlag "p1") agentBoom)
  = inl (ExitError "boom" 2)
  /\ last (effects (main quotePlain true noFiles ["xds-exec"; "--id"; "p1"; "--"; "make"] ∅
                      (idFlag "p1") agentBoom))
     = Some (Stderr ("boom" +:+ nl)).
Proof. split; vm_compute; reflexivity. Qed.

Example help_exit_codes :
  (exists msg, outcome (Action quotePlain (varsOf EmptyString false [EmptyString]) agent1)
               = inl (ExitError msg 1))
  /\ (exists msg, outcome (Action quotePlain (varsOf "p1" true [EmptyString]) agent1)
                  = inl (ExitError msg 0)).
Proof. split; eexists; vm_compute; reflexivity. Qed.

(** ** The properties at concrete inputs *)

(** A disconnection with error [boom] after one output chunk. *)
Lemma C1_disconnection_boom :
  exists s', rtc (step false)
               (streaming [ExecOutMsg "t1" "out1" EmptyString; EvDisconnection (Some "boom")]) s'
             /\ returned s' = Some (ExitError "boom" 2).
Proof.
  exact (proj2 (proj1 (proj2
           (C1_terminal_outcome false
              (streaming [ExecOutMsg "t1" "out1" EmptyString; EvDisconnection (Some "boom")])
              [ExecOutMsg "t1" "out1" EmptyString] [] eq_refl eq_refl
              ltac:(by repeat constructor)))
           (Some "boom") eq_refl)).
Defined.

(** [xds-exec --id p1 -- make all]: the separator is at index 3 of 6. *)
Lemma C2_split_of_make_all :
  args (scanned (splitArgs noFiles ["xds-exec"; "--id"; "p1"; "--"; "make"; "all"] ∅))
  = ["xds-exec"; "--id"; "p1"; EmptyString; EmptyString; EmptyString]
  /\ argsCommand
       (scanned (splitArgs noFiles ["xds-exec"; "--id"; "p1"; "--"; "make"; "all"] ∅))
     = ["make"; "all"; EmptyString; EmptyString; EmptyString; EmptyString].
Proof.
  assert ("--" ∉ ["--id"; "p1"]) as Hno.
  { intros [?|[?|?%elem_of_nil]%elem_of_cons]%elem_of_cons; done. }
  exact (proj1 (proj1 (C2_split_with_padding noFiles "xds-exec"
                         ["--id"; "p1"; "--"; "make"; "all"] ∅ ltac:(done))
                  ["--id"; "p1"] ["make"; "all"] eq_refl Hno)
           _ ∅ eq_refl).
Defined.

(** [xds-exec -c conf -- make] with [conf] and the environment both
    naming the project ID: the file's value is chosen. *)
Lemma C3_file_over_environment :
  prjID (parseFlags true (configFlag "conf")
           (fileLayer confFiles ["xds-exec"; "-c"; "conf"; "--"; "make"] ∪ sampleEnv)
           (scanned (splitArgs confFiles ["xds-exec"; "-c"; "conf"; "--"; "make"] sampleEnv)))
  = "fromfile".
Proof.
  assert ((flag_id, opt_id, prjID) ∈ stringParams) as Hin by (unfold stringParams; left).
  destruct (C3_precedence true confFiles ["xds-exec"; "-c"; "conf"; "--"; "make"]
              sampleEnv (configFlag "conf") _ _ eq_refl) as [_ H].
  destruct (H flag_id opt_id prjID Hin) as (_ & Hfile & _).
  exact (Hfile "fromfile" eq_refl eq_refl ltac:(done)).
Defined.

(** The working directory [/home/u/proj/src] under the client root [proj]. *)
Lemma C4_path_of_proj_src :
  setupRPath (varsOf "p1" false ["make"]) agent1 (Some project1) = Trim "/src" "/".
Proof.
  destruct (C4_inferred_path (varsOf "p1" false ["make"]) agent1 project1
              "/home/u/proj/src" eq_refl eq_refl) as [_ H].
  destruct (H "/home/u" "/src" eq_refl) as [Hone _].
  - by apply (Index_Some "/proj" "/home/u/proj/src" 7).
  - apply Hone. by apply (Index_None "/proj" "/src").
Defined.

(** An empty project ID with one project and one SDK known. *)
Lemma C5_help_for_p1_s1 :
  exists msg,
    outcome (Action quotePlain (varsOf EmptyString false [EmptyString]) agent1)
    = inl (ExitError msg 1)
    /\ contains (projectLine project1) msg
    /\ contains (sdkLine sdk1) msg
    /\ contains (cat ["  "; AppName; " --id "; quotePlain "p1";
                      " --sdkid "; quotePlain "s1"; " -- "]) msg.
Proof.
  assert (listed (varsOf EmptyString false [EmptyString]) agent1
            {| items := [project1]; errMar := None |}) as Hl.
  { repeat split; try done. by eexists. }
  destruct (proj2 (proj2 (C5_help_outcome quotePlain
                            (varsOf EmptyString false [EmptyString]) agent1
                            (or_introl eq_refl)) _ Hl)
              {| items := [sdk1]; errMar := None |} eq_refl)
    as (msg & Hout & Hp & Hk & Hex).
  exists msg. split; [exact Hout|]. split; [|split].
  - apply (Hp eq_refl). by left.
  - apply (Hk eq_refl). by left.
  - exact (Hex project1 [] sdk1 [] eq_refl eq_refl).
Defined.

(** [xds-exec --id p1]: no separator, the library runs the action, and
    a request is posted. *)
Lemma C6_request_of_no_separator :
  readLine ["xds-exec"; "--id"; "p1"] ∅ = Some (idFlag "p1")
  /\ exists body,
       In (Post "/exec" body)
          (effects (main quotePlain true noFiles ["xds-exec"; "--id"; "p1"] ∅
                      (idFlag "p1") agent1))
       /\ ExecArgs.Cmd body = EmptyString
       /\ ExecArgs.Args body = [EmptyString; EmptyString].
Proof.
  assert ("--" ∉ ["--id"; "p1"]) as Hno.
  { intros [?|[?|?%elem_of_nil]%elem_of_cons]%elem_of_cons; done. }
  split; [reflexivity|].
  destruct (C6_empty_command_is_posted quotePlain true noFiles "xds-exec"
              ["--id"; "p1"] ∅ (idFlag "p1") agent1 ltac:(done) Hno)
    as [Hsplit _].
  destruct (Hsplit _ _ eq_refl) as (_ & _ & Hpost & _).
  apply (Hpost eq_refl {| items := [project1]; errMar := None |}); try done.
  repeat split; try done. by eexists.
Defined.

(** A project payload that does not decode, with an empty project ID. *)
Lemma C7_malformed_projects :
  outcome (Action quotePlain (varsOf EmptyString false [EmptyString]) agentMalformed)
  = inl (ExitError
           (helpText quotePlain false
              {| items := []; errMar := Some "unexpected end of JSON input" |}
              {| items := [sdk1]; errMar := None |}) 1).
Proof.
  exact (proj1 (proj1 (C7_listing_failures quotePlain
                         (varsOf EmptyString false [EmptyString]) agentMalformed
                         (or_introl eq_refl) eq_refl eq_refl
                         (ex_intro _ "1.0" eq_refl))
                  _ _ eq_refl eq_refl)).
Defined.

(** The two chunks and the exit of [agent1], without timestamps. *)
Lemma C8_out1_then_err1 :
  exists delivered,
    events agent1 = delivered ++ []
    /\ [Stdout "out1"; Stderr "err1"] = [] ++ concat (chunks false <$> delivered).
Proof.
  exact (proj2 (C8_output_as_it_arrives false)
           (streaming (events agent1))
           (waitExit false 3 (streaming (events agent1)))
           (waitExit_steps false 3 (streaming (events agent1)) eq_refl)).
Defined.

(** Neither flag nor variable: the configured URL is the default. *)
Lemma C9_default_url :
  uri (parseFlags true noFlags ∅ (varsOf EmptyString false [])) = "localhost:8000".
Proof.
  exact (proj1 (C9_base_url quotePlain true noFlags ∅ (varsOf EmptyString false []) agent1)
           eq_refl eq_refl).
Defined.

(** The request of [xds-exec --id p1 -- make all]. *)
Lemma C10_timeout_of_make_all :
  ExecArgs.CmdTimeout
    {| ExecArgs.ID := "p1"; ExecArgs.SdkID := EmptyString; ExecArgs.Cmd := "make";
       ExecArgs.Args := ["all"; EmptyString; EmptyString; EmptyString; EmptyString];
       ExecArgs.Env := []; ExecArgs.RPath := "src"; ExecArgs.CmdTimeout := 60 |}
  = 60%Z.
Proof.
  apply (C10_timeout_is_60 quotePlain true noFiles
           ["xds-exec"; "--id"; "p1"; "--"; "make"; "all"] ∅ (idFlag "p1") agent1 "/exec").
  vm_compute. tauto.
Defined.

(** * Further properties of [main.go] *)

(** ** The scan of the command line *)

Lemma length_copy (dst src : list string) : length (copy dst src) = length dst.
Proof. unfold copy. rewrite length_app, length_take, length_drop. lia. Qed.

Lemma scanArgs_lengths fs osArgs : forall rest idx v e v' e',
  outcome (scanArgs fs osArgs idx rest (v, e)) = inr (v', e') ->
  length (args v') = length (args v)
  /\ length (argsCommand v') = length (argsCommand v).
Proof.
  induction rest as [|a rest IH]; intros idx v e v' e'; cbn [scanArgs].
  - intros [= <- <-]. simpl. by rewrite length_copy.
  - rewrite outcome_bind.
    match goal with
    | |- context [match outcome ?m with _ => _ end] =>
        destruct (outcome m) as [?|[v1 e1]] eqn:E1; [done|]
    end.
    assert (args v1 = args v /\ argsCommand v1 = argsCommand v) as [Ha Hc].
    { destruct (_ || _); [by eapply sourceConfig_keeps|]. cbv in E1. by simplify_eq. }
    destruct (String.eqb a "--").
    + intros [= <- <-]. simpl. by rewrite !length_copy, Ha, Hc.
    + intros Hrun. destruct (IH _ _ _ _ _ Hrun) as [-> ->]. by rewrite Ha, Hc.
Qed.

(** X1.  Whenever the split of lines 188-234 ends, under the native
    name or not, both [args] and [argsCommand] have exactly
    [len(os.Args)] elements, and [os.Args] is not empty; so
    [argsCommand[0]] and [argsCommand[1:]] of line 436-437 are always
    in range. *)
Theorem split_keeps_lengths (fs : FileSys) (osArgs : list string)
    (environ : gmap string string) (v : Vars) (e : gmap string string) :
  outcome (splitArgs fs osArgs environ) = inr (v, e) ->
  osArgs <> []
  /\ length (args v) = length osArgs
  /\ length (argsCommand v) = length osArgs.
Proof.
  unfold splitArgs. destruct osArgs as [|arg0 tail]; [done|].
  assert (length (args (initVars (arg0 :: tail) arg0)) = length (arg0 :: tail)
          /\ length (argsCommand (initVars (arg0 :: tail) arg0)) = length (arg0 :: tail))
    as [Ha Hc].
  { simpl. by rewrite length_replicate. }
  destruct (negb _).
  - intros [-> ->]%scanArgs_lengths. by rewrite Ha, Hc.
  - intros [= <- <-]. split; [done|].
    split; [exact Ha|].
    change (length (copy (argsCommand (initVars (arg0 :: tail) arg0)) (arg0 :: tail))
            = length (arg0 :: tail)).
    by rewrite length_copy.
Qed.

Lemma split_lengths_of_make :
  length (args (scanned (splitArgs noFiles ["xds-exec"; "--"; "make"] ∅))) = 3%nat
  /\ length (argsCommand (scanned (splitArgs noFiles ["xds-exec"; "--"; "make"] ∅)))
     = 3%nat.
Proof.
  exact (proj2 (split_keeps_lengths noFiles ["xds-exec"; "--"; "make"] ∅ _ ∅ eq_refl)).
Defined.

(** ** The name the program runs under *)

Lemma Index_slash_cons c s :
  Index (String c s) "/" = None <-> c <> "/"%char /\ Index s "/" = None.
Proof.
  cbn [Index HasPrefix]. destruct (Ascii.eqb_spec "/" c) as [<-|Hne].
  - split; [done|by intros [? _]].
  - destruct (Index s "/"); simpl; split; try done; try (by intros [_ ?]).
Qed.

Lemma lastByte_app l r : r <> EmptyString -> lastByte (l +:+ r) = lastByte r.
Proof.
  intros Hr. induction l as [|c l IH]; [done|]. rewrite app_cons. simpl.
  destruct (l +:+ r) eqn:E; [|done]. destruct l; [|done]. by rewrite app_empty_l in E.
Qed.

Lemma lastByte_no_slash s c : Index s "/" = None -> lastByte s = Some c -> c <> "/"%char.
Proof.
  induction s as [|d s IH]; [done|]. intros [Hd Hs]%Index_slash_cons. simpl.
  destruct s; [by intros [= <-]|]. by apply IH.
Qed.

Lemma TrimRight_keeps s cutset c :
  lastByte s = Some c -> inCutset cutset c = false -> TrimRight s cutset = s.
Proof.
  induction s as [|d s IH]; [done|]. simpl. destruct s as [|d' s].
  - intros [= <-] ->. done.
  - intros Hl Hc. by rewrite (IH Hl Hc).
Qed.

Lemma afterLastSlash_none s : Index s "/" = None -> afterLastSlash s = None.
Proof.
  induction s as [|d s IH]; [done|]. intros [Hd Hs]%Index_slash_cons. simpl.
  rewrite (IH Hs). destruct (Ascii.eqb_spec d "/"); congruence.
Qed.

Lemma afterLastSlash_app dir name :
  Index name "/" = None -> afterLastSlash (dir +:+ "/" +:+ name) = Some name.
Proof.
  intros Hn. induction dir as [|c dir IH].
  - rewrite app_empty_l, app_cons, app_empty_l. simpl.
    by rewrite (afterLastSlash_none _ Hn).
  - rewrite app_cons. simpl. by rewrite IH.
Qed.

Lemma Base_untrimmed path :
  path <> EmptyString -> TrimRight path "/" = path ->
  Base path = match afterLastSlash path with Some r => r | None => path end.
Proof. intros Hne Ht. unfold Base. destruct path; [done|]. by rewrite Ht. Qed.

Lemma lastByte_some s : s <> EmptyString -> exists c, lastByte s = Some c.
Proof.
  induction s as [|d s IH]; [done|]. intros _. simpl.
  destruct s; [by eexists|]. by apply IH.
Qed.

(** X2.  [filepath.Base] of line 191 on a name without a slash, bare
    or behind any directory, gives back the name: the wrapper run as
    [exec] through any path (a link [dir/exec]) takes the branch of
    line 232. *)
Theorem Base_of_path (name : string) :
  name <> EmptyString -> Index name "/" = None ->
  Base name = name /\ forall dir, Base (dir +:+ "/" +:+ name) = name.
Proof.
  intros Hne Hn.
  destruct (lastByte_some name Hne) as [c Hc].
  assert (inCutset "/" c = false) as Hin.
  { simpl. pose proof (lastByte_no_slash _ _ Hn Hc). by destruct (Ascii.eqb_spec c "/"). }
  split.
  - rewrite Base_untrimmed, (afterLastSlash_none _ Hn); [done..|].
    by apply (TrimRight_keeps _ _ c).
  - intros dir.
    assert ("/" +:+ name <> EmptyString) as Hne' by done.
    rewrite Base_untrimmed, afterLastSlash_app; [done..| |].
    + intros E. apply (f_equal String.length) in E. rewrite length_app_s in E.
      simpl in E. lia.
    + apply (TrimRight_keeps _ _ c); [|done].
      by rewrite lastByte_app, <- Hc, (lastByte_app "/").
Qed.

Lemma Base_of_usr_bin_exec : Base ("/usr/local/bin" +:+ "/" +:+ "exec") = "exec".
Proof. exact (proj2 (Base_of_path "exec" ltac:(done) eq_refl) "/usr/local/bin"). Defined.

(** ** The request *)

(** The request line 433-441 builds from the variables. *)
Lemma Action_post_inv Quote v a url body :
  In (Post url body) (effects (Action Quote v a)) ->
  url = "/exec"
  /\ prjID v <> EmptyString /\ listProject v = false
  /\ exists projects cmd rest,
       getProjects a = inr projects /\ argsCommand v = cmd :: rest
       /\ body = {| ExecArgs.ID := prjID v; ExecArgs.SdkID := sdkid v;
                    ExecArgs.Cmd := Trim cmd " "; ExecArgs.Args := rest;
                    ExecArgs.Env := buildEnv (envMap v);
                    ExecArgs.RPath :=
                      setupRPath v a (findProject (items projects) (prjID v));
                    ExecArgs.CmdTimeout := 60 |}.
Proof.
  unfold Action. act_unfold.
  repeat (case_match; simplify_eq; simpl in * ); intros Hin;
    repeat (destruct Hin as [Hin|Hin]; simplify_eq; try done).
  all: try (by apply streamed_writes in Hin).
  all: try done.
  all: lazymatch goal with
       | H : orb _ _ = false |- _ => apply orb_false_elim in H as [Hid Hl]
       end; apply String.eqb_neq in Hid;
       split; [done|split; [done|split; [done|]]]; by eexists _, _, _.
Qed.

Lemma Action_posts Quote v a projects cmd rest :
  listed v a projects -> prjID v <> EmptyString -> listProject v = false ->
  newIOClient a (baseURLOf (uri v)) = None -> argsCommand v = cmd :: rest ->
  In (Post "/exec"
        {| ExecArgs.ID := prjID v; ExecArgs.SdkID := sdkid v;
           ExecArgs.Cmd := Trim cmd " "; ExecArgs.Args := rest;
           ExecArgs.Env := buildEnv (envMap v);
           ExecArgs.RPath := setupRPath v a (findProject (items projects) (prjID v));
           ExecArgs.CmdTimeout := 60 |})
     (effects (Action Quote v a)).
Proof.
  intros (Hlvl & Hcli & [version Hver] & Hprj) Hid Hlist Hio Hcmd.
  apply String.eqb_neq in Hid.
  unfold Action. rewrite Hlvl, Hcli, Hver, Hprj, Hid, Hlist, Hio, Hcmd. act_unfold.
  destruct (post a _); cbn -[waitExit Trim]; tauto.
Qed.

(** X3.  Run under the native name (line 232-234), the split reads no
    token and no file: it ends with the whole of [os.Args], program
    name included, as the native command line, [args] holding the
    program name and empty strings, no environment map and the process
    environment as it was.  The request then posted has the program
    name, trimmed of spaces, as its command, the other arguments as its
    arguments, and no environment. *)
Theorem alias_takes_whole_command_line (fs : FileSys) (arg0 : string)
    (tail : list string) (environ : gmap string string) :
  Base arg0 = AppNativeName ->
  exists v,
    splitArgs fs (arg0 :: tail) environ = ([], inr (v, environ))
    /\ args v = arg0 :: replicate (length tail) EmptyString
    /\ argsCommand v = arg0 :: tail
    /\ envMap v = ∅
    /\ forall Quote emptyIsSet cl a projects,
         listed (parseFlags emptyIsSet cl environ v) a projects ->
         prjID (parseFlags emptyIsSet cl environ v) <> EmptyString ->
         listProject (parseFlags emptyIsSet cl environ v) = false ->
         newIOClient a (baseURLOf (uri (parseFlags emptyIsSet cl environ v))) = None ->
         exists body,
           In (Post "/exec" body)
              (effects (main Quote emptyIsSet fs (arg0 :: tail) environ cl a))
           /\ ExecArgs.Cmd body = Trim arg0 " "
           /\ ExecArgs.Args body = tail
           /\ ExecArgs.Env body = [].
Proof.
  intros Hexe.
  assert (splitArgs fs (arg0 :: tail) environ
          = ([], inr (set_argsCommand
                        (copy (argsCommand (initVars (arg0 :: tail) arg0)) (arg0 :: tail))
                        (initVars (arg0 :: tail) arg0), environ))) as Hsplit.
  { unfold splitArgs. by rewrite Hexe. }
  assert (copy (argsCommand (initVars (arg0 :: tail) arg0)) (arg0 :: tail) = arg0 :: tail)
    as Hcopy.
  { rewrite (copy_padded _ (S (length tail))).
    - by rewrite Nat.sub_diag, app_nil_r.
    - simpl. by rewrite length_replicate.
    - done.
    - by left. }
  eexists. split; [exact Hsplit|]. split; [done|]. split; [exact Hcopy|]. split; [done|].
  intros Quote emptyIsSet cl a projects Hl Hid Hlist Hio.
  pose proof (Action_posts Quote _ a projects arg0 tail Hl Hid Hlist Hio Hcopy) as Hin.
  eexists. split.
  - rewrite (main_after_split _ _ _ _ _ _ _ _ Hsplit). apply HandleExitCoder_effects.
    exact Hin.
  - split; [done|]. split; [done|]. simpl. unfold buildEnv.
    by rewrite map_to_list_empty.
Qed.

Lemma alias_of_usr_bin_exec :
  exists v,
    splitArgs noFiles ["/usr/bin/exec"; "make"; "-c"; "all"] ∅ = ([], inr (v, ∅))
    /\ argsCommand v = ["/usr/bin/exec"; "make"; "-c"; "all"].
Proof.
  destruct (alias_takes_whole_command_line noFiles "/usr/bin/exec" ["make"; "-c"; "all"] ∅
              eq_refl) as (v & Hs & _ & Hc & _).
  exists v. by split.
Defined.

(** ** Config tokens that cannot be honoured *)

Lemma scanArgs_skip fs osArgs : forall pre idx rest st,
  Forall (fun x => isConfigToken x = false /\ x <> "--") pre ->
  scanArgs fs osArgs idx (pre ++ rest) st
  = scanArgs fs osArgs (idx + length pre) rest st.
Proof.
  induction pre as [|x pre IH]; intros idx rest st Hpre; cbn [app length].
  - by rewrite Nat.add_0_r.
  - inversion_clear Hpre as [|?? [Hx Hsep] Hrest]. cbn [scanArgs].
    unfold isConfigToken in Hx. rewrite Hx, bind_mret.
    apply String.eqb_neq in Hsep. rewrite Hsep, (IH _ _ _ Hrest).
    f_equal. lia.
Qed.

Lemma lookup_past_pre (arg0 : string) (pre rest : list string) (k : nat) :
  (arg0 :: pre ++ rest) !! (0 + length pre + S k)%nat = rest !! k.
Proof.
  cbn [Nat.add]. rewrite Nat.add_succ_r. cbn [lookup list_lookup].
  change ((pre ++ rest) !! (length pre + k)%nat = rest !! k).
  by rewrite lookup_app_r, Nat.add_comm, Nat.add_sub by lia.
Qed.

(** X4.  Outside the native name, a [-c] or [--config] token that is
    the last token of the command line, with no separator and no other
    config token before it, makes line 204 read past the end of
    [os.Args]: [main] panics before anything else is done. *)
Theorem config_token_last_panics (Quote : string -> string) (emptyIsSet : bool)
    (fs : FileSys) (arg0 : string) (pre : list string) (tok : string)
    (environ : gmap string string) (cl : CmdLine) (a : Agent) :
  Base arg0 <> AppNativeName ->
  Forall (fun x => isConfigToken x = false /\ x <> "--") pre ->
  isConfigToken tok = true ->
  main Quote emptyIsSet fs (arg0 :: pre ++ [tok]) environ cl a
  = ([], inl (Panic "index out of range")).
Proof.
  intros Hexe%String.eqb_neq Hpre Htok. unfold main, splitArgs.
  rewrite Hexe. cbn [negb]. rewrite (scanArgs_skip _ _ _ _ _ _ Hpre). cbn [scanArgs].
  unfold isConfigToken in Htok. rewrite Htok. unfold sourceConfig.
  rewrite (lookup_past_pre arg0 pre [tok] 1). done.
Qed.

Lemma config_token_last_of_xds_exec :
  main quotePlain true noFiles (["xds-exec"; "--id"; "p1"] ++ ["-c"]) ∅ (idFlag "p1") agent1
  = ([], inl (Panic "index out of range")).
Proof.
  apply (config_token_last_panics quotePlain true noFiles "xds-exec" ["--id"; "p1"] "-c").
  - done.
  - by repeat constructor.
  - done.
Defined.

(** X5.  Outside the native name, the first config token, met before
    any separator and followed by a non-empty file name: when
    [os.Stat] reports that the file does not exist, [exists] is false
    and [main] writes [Error env config file not found] to the standard
    error stream and exits with code 1; when [os.Stat] succeeds or
    fails in any other way, [exists] is true, and if godotenv cannot
    load the file [main] exits with code 1, having written
    [Error loading env config file] and the name when the name holds no
    [%] (the text goes through [fmt] as a format, lines 70-71, which
    reads a [%] as a verb).  Either way the agent is never called. *)
Theorem config_file_failures (Quote : string -> string) (emptyIsSet : bool)
    (stat : string -> StatResult) (read : string -> option (gmap string string))
    (arg0 : string) (pre : list string) (tok f : string) (more : list string)
    (environ : gmap string string) (cl : CmdLine) (a : Agent) :
  Base arg0 <> AppNativeName ->
  Forall (fun x => isConfigToken x = false /\ x <> "--") pre ->
  isConfigToken tok = true -> f <> EmptyString ->
  (stat f = StatErr true ->
     main Quote emptyIsSet (hostFiles stat read) (arg0 :: pre ++ tok :: f :: more)
          environ cl a
     = ([Stderr ("Error env config file not found" +:+ nl)],
        inl (ExitError "Error env config file not found" 1)))
  /\ (stat f <> StatErr true -> read f = None ->
     (forall e, In e (effects (main Quote emptyIsSet (hostFiles stat read)
                                 (arg0 :: pre ++ tok :: f :: more) environ cl a)) ->
                isWrite e)
     /\ (exists message,
           outcome (main Quote emptyIsSet (hostFiles stat read)
                      (arg0 :: pre ++ tok :: f :: more) environ cl a)
           = inl (ExitError message 1))
     /\ (Index f "%" = None ->
         main Quote emptyIsSet (hostFiles stat read) (arg0 :: pre ++ tok :: f :: more)
              environ cl a
         = ([Stderr ("Error loading env config file " +:+ f +:+ nl)],
            inl (ExitError ("Error loading env config file " +:+ f) 1)))).
Proof.
  intros Hexe%String.eqb_neq Hpre Htok Hf%String.eqb_neq.
  assert (forall fs,
            splitArgs fs (arg0 :: pre ++ tok :: f :: more) environ
            = sourceConfig fs (arg0 :: pre ++ tok :: f :: more) (0 + length pre)
                (initVars (arg0 :: pre ++ tok :: f :: more) arg0, environ)
              ≫= fun st =>
                   if String.eqb tok "--" then
                     mret (set_argsCommand
                             (copy (argsCommand
                                      (set_args (copy (args st.1)
                                         (firstn (0 + length pre + 1)
                                            (arg0 :: pre ++ tok :: f :: more))) st.1))
                                (skipn (0 + length pre + 2)
                                   (arg0 :: pre ++ tok :: f :: more)))
                             (set_args (copy (args st.1)
                                (firstn (0 + length pre + 1)
                                   (arg0 :: pre ++ tok :: f :: more))) st.1), st.2)
                   else scanArgs fs (arg0 :: pre ++ tok :: f :: more)
                          (S (0 + length pre)) (f :: more) st) as Hsplit.
  { intros fs. unfold splitArgs. rewrite Hexe. cbn [negb].
    rewrite (scanArgs_skip _ _ _ _ _ _ Hpre). cbn [scanArgs].
    unfold isConfigToken in Htok. by rewrite Htok. }
  unfold main. rewrite Hsplit. unfold sourceConfig.
  rewrite (lookup_past_pre arg0 pre (tok :: f :: more) 1). cbn [lookup list_lookup].
  rewrite Hf. cbn [fileExists dotenv hostFiles]. split.
  - intros ->. done.
  - intros Hstat ->.
    assert (exists' (stat f) = true) as -> by (destruct (stat f) as [|[]]; done).
    split; [|split].
    + intros e [<-|[]]. done.
    + by eexists.
    + done.
Qed.

Lemma config_file_missing_for_xds_exec :
  main quotePlain true (hostFiles (fun _ => StatErr true) (fun _ => None))
       (["xds-exec"] ++ "-c" :: "conf" :: ["--"; "make"]) ∅ (configFlag "conf") agent1
  = ([Stderr ("Error env config file not found" +:+ nl)],
     inl (ExitError "Error env config file not found" 1)).
Proof.
  apply (proj1 (config_file_failures quotePlain true (fun _ => StatErr true) (fun _ => None)
                  "xds-exec" [] "-c" "conf" ["--"; "make"] ∅ (configFlag "conf") agent1
                  ltac:(done) ltac:(constructor) eq_refl ltac:(done))).
  done.
Defined.

(** ** The environment that is forwarded *)

Lemma sourceConfig_envMap fs osArgs idx v e v' e' :
  outcome (sourceConfig fs osArgs idx (v, e)) = inr (v', e') ->
  envMap v'
  = default (envMap v)
      (last match osArgs !! (idx + 2)%nat with
            | Some f =>
                if String.eqb f EmptyString then []
                else match dotenv fs f with Some m => [m] | None => [] end
            | None => []
            end).
Proof.
  unfold sourceConfig, exitError. rewrite ?outcome_bind.
  repeat (case_match; simpl; rewrite ?outcome_bind; simpl); intros; by simplify_eq.
Qed.

Lemma default_last_app {A} (x : A) (l1 l2 : list A) :
  default x (last (l1 ++ l2)) = default (default x (last l1)) (last l2).
Proof.
  destruct l2 as [|y l2 _] using rev_ind; [by rewrite app_nil_r|].
  by rewrite (assoc_L (++)), !last_snoc.
Qed.

Lemma scanArgs_envMap fs osArgs : forall rest idx v e v' e',
  outcome (scanArgs fs osArgs idx rest (v, e)) = inr (v', e') ->
  envMap v' = default (envMap v) (last (sourced fs osArgs idx rest)).
Proof.
  induction rest as [|a rest IH]; intros idx v e v' e'; cbn [scanArgs sourced].
  - by intros [= <- <-].
  - rewrite outcome_bind. fold (isConfigToken a).
    match goal with
    | |- context [match outcome ?m with _ => _ end] =>
        destruct (outcome m) as [?|[v1 e1]] eqn:E1; [done|]
    end.
    rewrite default_last_app.
    assert (envMap v1
            = default (envMap v)
                (last (if isConfigToken a
                       then match osArgs !! (idx + 2)%nat with
                            | Some f =>
                                if String.eqb f EmptyString then []
                                else match dotenv fs f with Some m => [m] | None => [] end
                            | None => []
                            end
                       else []))) as <-.
    { destruct (isConfigToken a); [by eapply sourceConfig_envMap|].
      cbv in E1. by simplify_eq. }
    destruct (String.eqb a "--"); [by intros [= <- <-]|]. apply IH.
Qed.

Lemma elem_of_buildEnv (m : gmap string string) (x : string) :
  x ∈ buildEnv m <-> exists k val, m !! k = Some val /\ x = k +:+ "=" +:+ val.
Proof.
  unfold buildEnv. rewrite list_elem_of_fmap. split.
  - intros ([k val] & -> & Hin%elem_of_map_to_list). by exists k, val.
  - intros (k & val & Hm & ->). exists (k, val). split; [done|].
    by apply elem_of_map_to_list.
Qed.

(** X6.  Outside the native name, when the split ends, the environment
    map of line 214 holds the pairs of the last config file sourced,
    and of that one only (none when no file was sourced); the [Env] of
    a posted request (lines 424-429) has exactly one entry [key=value]
    for each of these pairs. *)
Theorem env_is_last_config_file (Quote : string -> string) (emptyIsSet : bool)
    (fs : FileSys) (arg0 : string) (tail : list string)
    (environ : gmap string string) (cl : CmdLine) (a : Agent)
    (v : Vars) (e : gmap string string) :
  Base arg0 <> AppNativeName ->
  outcome (splitArgs fs (arg0 :: tail) environ) = inr (v, e) ->
  envMap v = default ∅ (last (sourced fs (arg0 :: tail) 0 tail))
  /\ forall url body,
       In (Post url body)
          (effects (main Quote emptyIsSet fs (arg0 :: tail) environ cl a)) ->
       (forall x, x ∈ ExecArgs.Env body
                  <-> exists k val, envMap v !! k = Some val /\ x = k +:+ "=" +:+ val)
       /\ length (ExecArgs.Env body) = size (envMap v).
Proof.
  intros Hexe%String.eqb_neq Hsplit. split.
  - unfold splitArgs in Hsplit. rewrite Hexe in Hsplit. cbn [negb] in Hsplit.
    by apply scanArgs_envMap in Hsplit.
  - intros url body [Hw|(v' & e' & Hout & Hin)]%main_effects; [done|].
    rewrite Hsplit in Hout. injection Hout as <- <-.
    apply Action_post_inv in Hin as (_ & _ & _ & projects & cmd & rest & _ & _ & ->).
    cbn [ExecArgs.Env envMap parseFlags]. split; [apply elem_of_buildEnv|].
    unfold buildEnv. by rewrite length_fmap, length_map_to_list.
Qed.

Lemma env_of_conf :
  envMap (scanned (splitArgs confFiles ["xds-exec"; "-c"; "conf"; "--"; "make"] sampleEnv))
  = default ∅ (last (sourced confFiles ["xds-exec"; "-c"; "conf"; "--"; "make"] 0
                       ["-c"; "conf"; "--"; "make"])).
Proof.
  exact (proj1 (env_is_last_config_file quotePlain true confFiles "xds-exec"
                  ["-c"; "conf"; "--"; "make"] sampleEnv (configFlag "conf") agent1
                  _ _ ltac:(done) eq_refl)).
Defined.

(** ** What follows the separator *)

Lemma alike_bind (m m' : Act Scan) (f f' : Scan -> Act Scan) :
  alike m m' ->
  (forall st st', sourcing st = sourcing st' -> alike (f st) (f' st')) ->
  alike (m ≫= f) (m' ≫= f').
Proof.
  destruct m as [t [stop|st]], m' as [t' [stop'|st']]; unfold alike at 1;
    cbn [effects outcome fst snd sum_map]; intros [Ht Ho] Hf; try discriminate Ho.
  - injection Ho as ->. by subst.
  - assert (sourcing st = sourcing st') as Hs by congruence.
    destruct (Hf st st' Hs) as [He Hout].
    unfold alike, effects, outcome, mbind, act_bind in *.
    destruct (f st) as [u r], (f' st') as [u' r']. simpl in *. by subst.
Qed.

Lemma sourceConfig_alike fs osArgs osArgs' idx st st' :
  osArgs !! (idx + 2)%nat = osArgs' !! (idx + 2)%nat -> sourcing st = sourcing st' ->
  alike (sourceConfig fs osArgs idx st) (sourceConfig fs osArgs' idx st').
Proof.
  destruct st as [v e], st' as [v' e']. unfold sourcing. cbn [fst snd].
  intros Hlook [= Hc Hm <-]. unfold sourceConfig. rewrite Hlook.
  unfold alike, exitError. act_unfold.
  repeat (case_match; simpl); split; try done.
  all: unfold sourcing; simpl; by rewrite ?Hc, ?Hm.
Qed.

Lemma scanArgs_alike fs : forall pre idx osArgs osArgs' post post' st st',
  (forall j, (j <= idx + length pre + 1)%nat -> osArgs !! j = osArgs' !! j) ->
  sourcing st = sourcing st' ->
  alike (scanArgs fs osArgs idx (pre ++ "--" :: post) st)
        (scanArgs fs osArgs' idx (pre ++ "--" :: post') st').
Proof.
  induction pre as [|x pre IH]; intros idx osArgs osArgs' post post' st st' Hsame Hst;
    cbn [app scanArgs].
  - change (("--" =? "-c")%string || ("--" =? "--config")%string) with false.
    cbn iota. rewrite !bind_mret. change ("--" =? "--")%string with true. cbn iota.
    split; [done|]. cbn [outcome snd mret act_ret sum_map].
    destruct st as [v e], st' as [v' e']. unfold sourcing in *. simpl in *.
    congruence.
  - apply alike_bind.
    + destruct (_ || _).
      * apply sourceConfig_alike; [|done]. apply Hsame. cbn [length]. lia.
      * split; [done|]. cbn [outcome snd mret act_ret sum_map]. by rewrite Hst.
    + intros st1 st1' Hst1. destruct (x =? "--")%string.
      * split; [done|]. cbn [outcome snd mret act_ret sum_map].
        destruct st1 as [v e], st1' as [v' e']. unfold sourcing in *. simpl in *.
        congruence.
      * apply IH; [|done]. intros j Hj. apply Hsame. cbn [length]. lia.
Qed.

(** X7.  The loop of lines 201-227 leaves at the first [--]: the tokens
    after it are never read as options of the wrapper.  Whatever
    follows the separator, the split writes the same, stops the same
    way if it stops, and otherwise ends with the same config file name,
    the same environment map and the same process environment. *)
Theorem separator_ends_the_scan (fs : FileSys) (arg0 : string)
    (pre post post' : list string) (environ : gmap string string) :
  effects (splitArgs fs (arg0 :: pre ++ "--" :: post) environ)
  = effects (splitArgs fs (arg0 :: pre ++ "--" :: post') environ)
  /\ sum_map id sourcing (outcome (splitArgs fs (arg0 :: pre ++ "--" :: post) environ))
     = sum_map id sourcing (outcome (splitArgs fs (arg0 :: pre ++ "--" :: post') environ)).
Proof.
  unfold splitArgs. destruct (negb _); [|done].
  apply (scanArgs_alike fs pre 0 _ _ post post'); [|done].
  intros [|j] Hj; [done|]. cbn [lookup list_lookup].
  change ((pre ++ "--" :: post) !! j = (pre ++ "--" :: post') !! j).
  destruct (decide (j < length pre)%nat).
  - by rewrite !lookup_app_l.
  - rewrite !lookup_app_r by lia. by replace (j - length pre)%nat with 0%nat by lia.
Qed.

(** ** Trimmed text *)

Lemma TrimLeft_split s cutset :
  exists l, s = l +:+ TrimLeft s cutset /\ allIn cutset l = true.
Proof.
  induction s as [|c s (l & Hs & Hl)]; simpl; [by exists EmptyString|].
  destruct (inCutset cutset c) eqn:E.
  - exists (String c l). rewrite app_cons, <- Hs. simpl. by rewrite E, Hl.
  - by exists EmptyString.
Qed.

Lemma TrimLeft_head s cutset c r :
  TrimLeft s cutset = String c r -> inCutset cutset c = false.
Proof.
  induction s as [|d s IH]; simpl; [done|].
  destruct (inCutset cutset d) eqn:E; [done|]. by intros [= <- _].
Qed.

Lemma TrimRight_split s cutset :
  exists r, s = TrimRight s cutset +:+ r /\ allIn cutset r = true.
Proof.
  induction s as [|c s (r & Hs & Hr)]; simpl; [by exists EmptyString|].
  destruct (TrimRight s cutset) as [|d t] eqn:E.
  - rewrite app_empty_l in Hs. subst r. destruct (inCutset cutset c) eqn:Ec.
    + exists (String c s). simpl. by rewrite Ec, Hr.
    + by exists s.
  - exists r. by rewrite app_cons, <- Hs.
Qed.

Lemma TrimRight_head s cutset c r :
  TrimRight s cutset = String c r -> exists r', s = String c r'.
Proof.
  destruct s as [|d s]; simpl; [done|].
  destruct (TrimRight s cutset); [destruct (inCutset cutset d)|];
    intros [= <- _]; eauto.
Qed.

Lemma TrimRight_last s cutset c :
  lastByte (TrimRight s cutset) = Some c -> inCutset cutset c = false.
Proof.
  induction s as [|d s IH]; simpl; [done|].
  destruct (TrimRight s cutset) as [|d' t] eqn:E.
  - destruct (inCutset cutset d) eqn:Ed; simpl; [done|]. by intros [= <-].
  - intros Hl. by apply IH.
Qed.

(** What [strings.Trim] leaves: no byte of the cutset at either end,
    and only bytes of the cutset taken away. *)
Lemma Trim_spec s cutset :
  (forall c r, Trim s cutset = String c r -> inCutset cutset c = false)
  /\ (forall c, lastByte (Trim s cutset) = Some c -> inCutset cutset c = false)
  /\ exists l r, s = l +:+ Trim s cutset +:+ r
                 /\ allIn cutset l = true /\ allIn cutset r = true.
Proof.
  unfold Trim. split; [|split].
  - intros c r [r' Hr]%TrimRight_head. by eapply TrimLeft_head.
  - apply TrimRight_last.
  - destruct (TrimLeft_split s cutset) as (l & Hs & Hl).
    destruct (TrimRight_split (TrimLeft s cutset) cutset) as (r & Ht & Hr).
    exists l, r. by rewrite <- Ht.
Qed.

Lemma inCutset_one (d c : ascii) :
  inCutset (String d EmptyString) c = false -> c <> d.
Proof. simpl. by destruct (Ascii.eqb_spec c d). Qed.

(** X8.  A relative path read off the working directory (lines
    417-418) neither begins nor ends with a slash, and it is the text
    that follows the client root in the working directory, slashes
    around it left out. *)
Theorem inferred_path_is_trimmed (cwd ClientPath r : string) :
  autoRPath cwd ClientPath = Some r ->
  (forall c r', r = String c r' -> c <> "/"%char)
  /\ (forall c, lastByte r = Some c -> c <> "/"%char)
  /\ exists l s1 s2,
       cwd = l +:+ normRoot ClientPath +:+ s1 +:+ r +:+ s2
       /\ allIn "/" s1 = true /\ allIn "/" s2 = true.
Proof.
  rewrite autoRPath_eq.
  destruct (Index cwd (normRoot ClientPath)) as [m|] eqn:E; [|done]. cbn zeta.
  destruct (Index (strFrom _ cwd) (normRoot ClientPath)); [done|]. intros [= <-].
  destruct (Index_Some _ _ _ E) as [(l & r0 & Hcwd & Hl) _].
  assert (strFrom (m + String.length (normRoot ClientPath)) cwd = r0) as ->.
  { by rewrite Hcwd, <- Hl, <- app_assoc_s, <- length_app_s, strFrom_app. }
  destruct (Trim_spec r0 "/") as (Hhead & Hlast & s1 & s2 & Hr0 & Hs1 & Hs2).
  split; [|split].
  - intros c r' Hr. by eapply inCutset_one, Hhead.
  - intros c Hc. by eapply inCutset_one, Hlast.
  - exists l, s1, s2. by rewrite <- Hr0.
Qed.

Lemma inferred_path_of_nested_dir :
  exists l s1 s2,
    "/home/u/proj//src/lib/" = l +:+ normRoot "proj" +:+ s1 +:+ "src/lib" +:+ s2
    /\ allIn "/" s1 = true /\ allIn "/" s2 = true.
Proof.
  exact (proj2 (proj2 (inferred_path_is_trimmed "/home/u/proj//src/lib/" "proj" "src/lib"
                         eq_refl))).
Defined.

(** X9.  Every request the action posts goes to [/exec] and carries
    the project ID, which is not empty, and the SDK ID as configured; a
    relative path given explicitly is forwarded as it is; the command
    is the first element of the native command line with the spaces
    around it removed, so it neither begins nor ends with a space, and
    the arguments are the elements after the first (lines 433-447). *)
Theorem request_fields (Quote : string -> string) (v : Vars) (a : Agent)
    (url : string) (body : ExecArgs.t) :
  In (Post url body) (effects (Action Quote v a)) ->
  url = "/exec"
  /\ ExecArgs.ID body = prjID v /\ prjID v <> EmptyString
  /\ ExecArgs.SdkID body = sdkid v
  /\ (rPath v <> EmptyString -> ExecArgs.RPath body = rPath v)
  /\ (exists cmd, argsCommand v = cmd :: ExecArgs.Args body
                  /\ ExecArgs.Cmd body = Trim cmd " ")
  /\ (forall c r, ExecArgs.Cmd body = String c r -> c <> " "%char)
  /\ (forall c, lastByte (ExecArgs.Cmd body) = Some c -> c <> " "%char).
Proof.
  intros (-> & Hid & _ & projects & cmd & rest & _ & Hcmd & ->)%Action_post_inv.
  cbn [ExecArgs.ID ExecArgs.SdkID ExecArgs.RPath ExecArgs.Cmd ExecArgs.Args].
  destruct (Trim_spec cmd " ") as (Hhead & Hlast & _).
  repeat split; try done.
  - intros Hr%String.eqb_neq. unfold setupRPath. rewrite Hr. by destruct (findProject _ _).
  - by exists cmd.
  - intros c r Hc. by eapply inCutset_one, Hhead.
  - intros c Hc. by eapply inCutset_one, Hlast.
Qed.

Lemma request_fields_of_make_all :
  exists cmd,
    argsCommand (varsOf "p1" false [" make "; "all"]) = cmd :: ["all"]
    /\ "make" = Trim cmd " ".
Proof.
  destruct (request_fields quotePlain (varsOf "p1" false [" make "; "all"]) agent1 "/exec"
              {| ExecArgs.ID := "p1"; ExecArgs.SdkID := EmptyString; ExecArgs.Cmd := "make";
                 ExecArgs.Args := ["all"]; ExecArgs.Env := []; ExecArgs.RPath := "src";
                 ExecArgs.CmdTimeout := 60 |})
    as (_ & _ & _ & _ & _ & H & _).
  - vm_compute. tauto.
  - exact H.
Defined.

(** ** The exit channel *)

Section ExitChannel.

Variable wt : bool.

Lemma firstSignal_none evs :
  firstSignal evs = None <-> Forall (fun e => terminal e = false) evs.
Proof.
  induction evs as [|ev evs IH]; simpl; [by split; [constructor|]|].
  rewrite Forall_cons. destruct ev; simpl; rewrite ?IH; by intuition.
Qed.

(** One step either takes the next signal, which goes to the channel
    when it is terminal, or moves a result from the channel to the
    action. *)
Lemma step_held s s' :
  step wt s s' ->
  (exists ev, incoming s = ev :: incoming s'
              /\ (if terminal ev then held s = 0%nat /\ held s' = 1%nat
                  else held s' = held s))
  \/ (incoming s' = incoming s /\ held s' = held s /\ returned s' <> None).
Proof.
  unfold held. intros [Hr Hd|Hr Hd].
  - left. unfold deliver in Hd. destruct (incoming s) as [|ev evs] eqn:E; [done|].
    exists ev. destruct ev; simpl in Hd; unfold send in Hd; simpl in Hd;
      repeat case_decide; simplify_eq; simpl; rewrite ?Hr; try done.
    all: destruct (exitChan s); simpl in *; [done|lia].
  - right. unfold receive in Hd. destruct (exitChan s) eqn:E; [done|].
    simplify_eq. simpl. rewrite Hr. split; [done|]. split; [lia|done].
Qed.

Lemma steps_held s s' :
  rtc (step wt) s s' ->
  exists delivered,
    incoming s = delivered ++ incoming s'
    /\ (held s + length (List.filter terminal delivered) = held s')%nat
    /\ (held s <= 1 -> held s' <= 1)%nat.
Proof.
  induction 1 as [s|s1 s2 s3 Hstep _ (rest & Hin & Hcount & Hle)].
  - exists []. split; [done|]. simpl. split; [lia|done].
  - destruct (step_held _ _ Hstep) as [(ev & Hi & Hev)|(Hi & Hh & _)].
    + exists (ev :: rest). rewrite Hi, Hin. split; [done|]. simpl.
      destruct (terminal ev); simpl; lia.
    + exists rest. rewrite <- Hi, Hin. split; [done|]. lia.
Qed.

Lemma steps_quiet s s' :
  rtc (step wt) s s' ->
  returned s = None -> exitChan s = [] -> firstSignal (incoming s) = None ->
  returned s' = None /\ exitChan s' = [].
Proof.
  intros (delivered & Hin & Hcount & _)%steps_held Hr Hc Hf.
  rewrite Hin in Hf. apply firstSignal_none, Forall_app in Hf as [Hd _].
  assert (List.filter terminal delivered = []) as Hnone.
  { clear Hin Hcount. induction Hd as [|e l He _ IH]; simpl; [done|]. by rewrite He. }
  rewrite Hnone in Hcount. unfold held in Hcount. rewrite Hr, Hc in Hcount. simpl in Hcount.
  destruct (returned s'); [lia|]. split; [done|]. by destruct (exitChan s').
Qed.

(** Without a terminal signal the action's schedule takes every signal. *)
Lemma waitExit_drains n : forall s,
  exitChan s = [] -> firstSignal (incoming s) = None -> (length (incoming s) <= n)%nat ->
  written (waitExit wt n s) = written s ++ concat (chunks wt <$> incoming s).
Proof.
  induction n as [|n IH]; intros s Hc Hf Hn.
  - destruct (incoming s) eqn:E; simpl in *; [|lia].
    unfold receive. by rewrite Hc, app_nil_r.
  - simpl. unfold receive, deliver. rewrite Hc.
    destruct (incoming s) as [|ev evs] eqn:E; [by rewrite app_nil_r|]. simpl in Hf, Hn.
    destruct ev; simpl in *; try done.
    + rewrite IH; simpl; try done; try lia. by rewrite <- app_assoc.
    + rewrite IH; simpl; try done; try lia. by rewrite <- app_assoc, outFunc_chunks.
Qed.

End ExitChannel.

(** The calls of a run that posts its request, in order. *)
Lemma Action_posted Quote v a url body :
  In (Post url body) (effects (Action Quote v a)) -> post a body = None ->
  effects (Action Quote v a)
  = [NewHTTPClient (baseURLOf (uri v)); Get "/version"; Get "/projects";
     NewIOClient (baseURLOf (uri v)) (clientID a); Post url body]
    ++ written (waitExit (withTimestamp v) (length (events a)) (streaming (events a))).
Proof.
  unfold Action. act_unfold.
  repeat (case_match; simplify_eq; simpl in * ); intros Hin Hp;
    repeat (destruct Hin as [Hin|Hin]; simplify_eq; try done).
  all: first [done | by apply streamed_writes in Hin].
Qed.

(** X10.  The buffered channel of line 361, as long as the action has
    not received from it (line 453): in every run of a session that
    starts streaming, the channel holds one result for each terminal
    signal whose callback has completed, and never more than one;
    while it holds one, the callback of a further terminal signal
    cannot complete. *)
Theorem exit_channel_holds_one (wt : bool) (s s' : Session) :
  returned s = None -> exitChan s = [] ->
  rtc (step wt) s s' -> returned s' = None ->
  exists delivered,
    incoming s = delivered ++ incoming s'
    /\ length (List.filter terminal delivered) = length (exitChan s')
    /\ (length (exitChan s') <= 1)%nat
    /\ (forall ev rest,
          exitChan s' <> [] -> incoming s' = ev :: rest -> terminal ev = true ->
          deliver wt s' = None).
Proof.
  intros Hr Hc (delivered & Hin & Hcount & Hle)%steps_held Hr'.
  unfold held in Hcount, Hle. rewrite Hr, Hc, Hr' in Hcount, Hle. simpl in Hcount, Hle.
  exists delivered. split; [done|]. split; [lia|]. split; [lia|].
  intros ev rest Hfull Hnext Hev. unfold deliver. rewrite Hnext.
  destruct (exitChan s') as [|r q] eqn:E; [done|].
  destruct ev; try done; unfold callback, send; simpl; rewrite E; simpl;
    by case_decide; [lia|].
Qed.

Lemma exit_channel_of_two_exits :
  exists delivered,
    [ExecExitMsg None 0; ExecExitMsg None 3] = delivered ++ [ExecExitMsg None 3]
    /\ length (List.filter terminal delivered) = 1%nat
    /\ deliver false
         {| incoming := [ExecExitMsg None 3]; exitChan := [{| error := None; code := 0 |}];
            written := []; returned := None |}
       = None.
Proof.
  destruct (exit_channel_holds_one false
              (streaming [ExecExitMsg None 0; ExecExitMsg None 3])
              {| incoming := [ExecExitMsg None 3];
                 exitChan := [{| error := None; code := 0 |}];
                 written := []; returned := None |}
              eq_refl eq_refl
              (rtc_once _ _
                 (step_deliver false
                    (streaming [ExecExitMsg None 0; ExecExitMsg None 3])
                    {| incoming := [ExecExitMsg None 3];
                       exitChan := [{| error := None; code := 0 |}];
                       written := []; returned := None |}
                    eq_refl eq_refl)) eq_refl)
    as (delivered & Hin & Hcount & _ & Hblock).
  exists delivered. split; [exact Hin|]. split; [exact Hcount|].
  by apply (Hblock (ExecExitMsg None 3) []).
Defined.

(** X11.  When the request is posted and no exit event and no
    disconnection ever arrives, no run of the session returns: the
    action stays blocked in the select of line 452, having made its
    five calls and written the chunks of every signal, in order. *)
Theorem no_terminal_signal_no_return (Quote : string -> string) (v : Vars) (a : Agent)
    (url : string) (body : ExecArgs.t) :
  In (Post url body) (effects (Action Quote v a)) -> post a body = None ->
  Forall (fun e => terminal e = false) (events a) ->
  (forall s', rtc (step (withTimestamp v)) (streaming (events a)) s' ->
              returned s' = None /\ exitChan s' = [])
  /\ outcome (Action Quote v a) = inr tt
  /\ effects (Action Quote v a)
     = [NewHTTPClient (baseURLOf (uri v)); Get "/version"; Get "/projects";
        NewIOClient (baseURLOf (uri v)) (clientID a); Post url body]
       ++ concat (chunks (withTimestamp v) <$> events a).
Proof.
  intros Hpost Hok Hquiet%firstSignal_none.
  assert (forall s', rtc (step (withTimestamp v)) (streaming (events a)) s' ->
                     returned s' = None /\ exitChan s' = []) as Hrun.
  { intros s' Hsteps. by apply (steps_quiet _ _ _ Hsteps). }
  split; [exact Hrun|]. split.
  - rewrite (Action_streaming _ _ _ _ _ Hpost Hok).
    destruct (Hrun _ (waitExit_steps (withTimestamp v) (length (events a))
                        (streaming (events a)) eq_refl)) as [-> _].
    done.
  - rewrite (Action_posted _ _ _ _ _ Hpost Hok). f_equal.
    by rewrite waitExit_drains.
Qed.

Lemma no_return_of_silent_agent :
  outcome (Action quotePlain (varsOf "p1" false ["make"]) agentSilent) = inr tt
  /\ effects (Action quotePlain (varsOf "p1" false ["make"]) agentSilent)
     = [NewHTTPClient "http://localhost:8000"; Get "/version"; Get "/projects";
        NewIOClient "http://localhost:8000" "sid";
        Post "/exec" {| ExecArgs.ID := "p1"; ExecArgs.SdkID := EmptyString;
                        ExecArgs.Cmd := "make"; ExecArgs.Args := [];
                        ExecArgs.Env := []; ExecArgs.RPath := "src";
                        ExecArgs.CmdTimeout := 60 |};
        Stdout "out1"; Stdout ("ERROR:  lost" +:+ nl)].
Proof.
  refine (proj2 (no_terminal_signal_no_return quotePlain (varsOf "p1" false ["make"])
                   agentSilent "/exec" _ _ eq_refl _)).
  - vm_compute. tauto.
  - by repeat constructor.
Defined.

(** ** The HTTP client that cannot be created *)

Lemma occursAt_empty sep j : ~ occursAt sep EmptyString (S j).
Proof. intros ([|c l] & r & Hs & Hl); [done|]. by rewrite app_cons in Hs. Qed.

(** [LastIndex] finds the last occurrence, when there is one. *)
Lemma LastIndex_spec sep : forall s,
  match LastIndex s sep with
  | Some i => occursAt sep s i /\ forall j, (i < j)%nat -> ~ occursAt sep s j
  | None => forall j, ~ occursAt sep s j
  end.
Proof.
  induction s as [|c s IH]; cbn [LastIndex].
  - destruct (HasPrefix EmptyString sep) eqn:E.
    + split; [by apply occursAt_0|]. intros [|j] Hj; [lia|]. apply occursAt_empty.
    + intros [|j]; [rewrite occursAt_0; congruence|apply occursAt_empty].
  - destruct (LastIndex s sep) as [i|].
    + destruct IH as [Ho Hlast]. split; [by apply occursAt_S|].
      intros [|j] Hj; [lia|]. rewrite occursAt_S. apply Hlast. lia.
    + destruct (HasPrefix (String c s) sep) eqn:E.
      * split; [by apply occursAt_0|]. intros [|j] Hj; [lia|]. rewrite occursAt_S. apply IH.
      * intros [|j]; [rewrite occursAt_0; congruence|]. rewrite occursAt_S. apply IH.
Qed.

(** A text the pattern of line 276 matches holds a colon. *)
Lemma matchGetHttp_colon : forall s, matchGetHttp s = true -> exists j, occursAt ":" s j.
Proof.
  induction s as [|c s IH]; cbn [matchGetHttp]; [done|].
  intros [[Hget Hscheme]%andb_true_iff|Hs]%orb_true_iff.
  - apply HasPrefix_spec in Hget as [r Hr]. rewrite Hr in Hscheme |- *.
    change 8%nat with (String.length "Get http") in Hscheme.
    rewrite strFrom_app in Hscheme.
    apply orb_true_iff in Hscheme as [[r' ->]%HasPrefix_spec|Hone].
    + exists 8%nat, "Get http", ("//" +:+ r'). by split.
    + destruct r as [|d r]; [done|]. apply andb_true_iff in Hone as [_ [r' ->]%HasPrefix_spec].
      exists 9%nat, ("Get http" +:+ String d EmptyString), ("//" +:+ r'). split; [|done].
      by rewrite app_assoc_s.
  - destruct (IH Hs) as [j Hj]. exists (S j). by apply occursAt_S.
Qed.

Lemma occursAt_Index sep s j : occursAt sep s j -> Index s sep <> None.
Proof. intros Ho Hi. by apply (Index_None _ _ Hi j). Qed.

(** X12.  When the HTTP client cannot be created (lines 273-281) and
    the error text is ASCII (bytes and runes are then the same for the
    pattern of line 276), the action has made no request and exits
    with code 1.  A text the pattern [Get http.?://] does not match is
    the message as it is.  A text it matches always holds a colon, so
    the slice [errmsg[i:]] of line 278 is in range, and the message is
    [Cannot connection to], the base URL, then the last colon of the
    text and what follows it. *)
Theorem client_error_message (Quote : string -> string) (v : Vars) (a : Agent)
    (errmsg : string) :
  ParseLevel (logLevel v) = true ->
  newClient a (baseURLOf (uri v)) = Some errmsg ->
  isASCII errmsg = true ->
  effects (Action Quote v a) = [NewHTTPClient (baseURLOf (uri v))]
  /\ (matchGetHttp errmsg = false -> outcome (Action Quote v a) = inl (ExitError errmsg 1))
  /\ (matchGetHttp errmsg = true ->
      exists before after,
        errmsg = before +:+ ":" +:+ after
        /\ Index after ":" = None
        /\ outcome (Action Quote v a)
           = inl (ExitError (cat ["Cannot connection to "; baseURLOf (uri v); ":"; after]) 1)).
Proof.
  intros Hlvl Hcli _. unfold Action. rewrite Hlvl, Hcli. act_unfold.
  destruct (matchGetHttp errmsg) eqn:Hm.
  - destruct (matchGetHttp_colon _ Hm) as [j Hj].
    pose proof (LastIndex_spec ":" errmsg) as Hlast.
    destruct (LastIndex errmsg ":") as [i|]; [|by destruct (Hlast j)].
    destruct Hlast as [(before & after & Herr & Hlen) Hlast].
    split; [done|]. split; [done|]. intros _. exists before, after.
    split; [done|]. split.
    + destruct (Index after ":") as [k|] eqn:Hk; [|done].
      apply Index_Some in Hk as [(l & r & Hafter & Hl) _].
      destruct (Hlast (i + 1 + k)%nat); [lia|].
      exists (before +:+ ":" +:+ l), r. split.
      * by rewrite Herr, Hafter, !app_assoc_s.
      * rewrite !length_app_s. simpl. lia.
    + rewrite Herr, <- Hlen, strFrom_app.
      by rewrite !cat_cons, cat_nil, app_assoc_s.
  - split; [done|]. split; [done|]. done.
Qed.

Lemma client_error_of_agent_down :
  exists before after,
    "Get http://localhost:8000/api/v1/version: dial tcp 127.0.0.1:8000: connect: connection refused"
    = before +:+ ":" +:+ after
    /\ Index after ":" = None
    /\ outcome (Action quotePlain (varsOf "p1" false ["make"]) agentDown)
       = inl (ExitError (cat ["Cannot connection to "; "http://localhost:8000"; ":"; after]) 1).
Proof.
  exact (proj2 (proj2 (client_error_message quotePlain (varsOf "p1" false ["make"]) agentDown
                         _ eq_refl eq_refl eq_refl)) eq_refl).
Defined.

(** ** Where [main] can panic *)

(** What the action's schedule returns is the result of the first
    terminal signal. *)
Lemma waitExit_returned wt n s x :
  returned s = None -> exitChan s = [] ->
  returned (waitExit wt n s) = Some x ->
  exists r, firstSignal (incoming s) = Some r /\ x = exitOf r.
Proof.
  intros Hr Hc Hx. pose proof (waitExit_steps wt n s Hr) as Hsteps.
  destruct (firstSignal (incoming s)) as [r|] eqn:Hf.
  - exists r. split; [done|]. by eapply returns_first.
  - destruct (steps_quiet wt _ _ Hsteps Hr Hc Hf) as [Hnone _]. congruence.
Qed.

Lemma Action_panic Quote v a w :
  outcome (Action Quote v a) = inl (Panic w) -> argsCommand v = [].
Proof.
  unfold Action. act_unfold.
  repeat (case_match; simplify_eq; simpl in * ); intros Hout; simplify_eq; try done.
  all: try match goal with
       | H : returned (waitExit _ _ _) = Some _ |- _ =>
           apply waitExit_returned in H as (r & _ & Hx); done
       end.
  all: match goal with
       | Hm : matchGetHttp ?e = true, Hl : LastIndex ?e ":" = None |- _ =>
           destruct (matchGetHttp_colon _ Hm) as [j Hj];
           pose proof (LastIndex_spec ":" e) as Hlast; rewrite Hl in Hlast;
           by destruct (Hlast j)
       end.
Qed.

Lemma scanArgs_panic fs osArgs : forall rest idx st w,
  outcome (scanArgs fs osArgs idx rest st) = inl (Panic w) ->
  w = "index out of range"
  /\ exists pre tok post,
       rest = pre ++ tok :: post /\ isConfigToken tok = true /\ ("--" ∉ pre)
       /\ osArgs !! (idx + length pre + 2)%nat = None.
Proof.
  induction rest as [|x rest IH]; intros idx st w; cbn [scanArgs]; [done|].
  rewrite outcome_bind.
  match goal with
  | |- context [match outcome ?m with _ => _ end] =>
      destruct (outcome m) as [e|st1] eqn:E1
  end.
  - intros [= ->]. destruct (String.eqb x "-c" || String.eqb x "--config") eqn:Hx; [|done].
    unfold sourceConfig in E1. destruct st as [v environ].
    destruct (osArgs !! (idx + 2)%nat) as [f|] eqn:Hf.
    + unfold exitError in E1. act_unfold. by repeat (case_match; simplify_eq; simpl in * ).
    + cbv in E1. injection E1 as <-. split; [done|].
      exists [], x, rest. simpl. rewrite Nat.add_0_r.
      split; [done|]. split; [done|]. split; [|done]. apply not_elem_of_nil.
  - destruct (String.eqb_spec x "--") as [->|Hsep]; [done|].
    intros (-> & pre & tok & post & -> & Htok & Hpre & Hlook)%IH. split; [done|].
    exists (x :: pre), tok, post. split; [done|]. split; [done|]. split.
    + rewrite not_elem_of_cons. by split; [congruence|].
    + rewrite <- Hlook. f_equal. simpl. lia.
Qed.

Lemma splitArgs_command fs osArgs environ st :
  outcome (splitArgs fs osArgs environ) = inr st -> argsCommand st.1 <> [].
Proof.
  unfold splitArgs. destruct osArgs as [|arg0 tail]; [done|]. destruct st as [v e].
  assert (length (argsCommand (initVars (arg0 :: tail) arg0)) = S (length tail)) as Hc.
  { simpl. by rewrite length_replicate. }
  intros Hout Hnil. assert (length (argsCommand v) = S (length tail)) as Hlen.
  { destruct (negb _).
    - apply scanArgs_lengths in Hout as [_ ->]. exact Hc.
    - injection Hout as <- <-.
      change (length (copy (argsCommand (initVars (arg0 :: tail) arg0)) (arg0 :: tail))
              = S (length tail)).
      by rewrite length_copy. }
  simpl in Hnil. by rewrite Hnil in Hlen.
Qed.

(** X13.  With [AppName] and [AppNativeName] as the source sets them
    (the two [panic] calls of lines 84 and 246 are then out of reach),
    [main] panics in two cases only, both with an index out of range:
    [os.Args] is empty (line 189), or, outside the native name, a [-c]
    or [--config] token is the last token of the command line and no
    separator stands before it (line 204).  The slice of line 278 and
    [argsCommand[0]] of line 436 never panic. *)
Theorem main_panics_only (Quote : string -> string) (emptyIsSet : bool) (fs : FileSys)
    (osArgs : list string) (environ : gmap string string) (cl : CmdLine) (a : Agent)
    (w : string) :
  outcome (main Quote emptyIsSet fs osArgs environ cl a) = inl (Panic w) ->
  w = "index out of range"
  /\ (osArgs = []
      \/ exists arg0 pre tok,
           osArgs = arg0 :: pre ++ [tok]
           /\ Base arg0 <> AppNativeName
           /\ isConfigToken tok = true
           /\ ("--" ∉ pre)).
Proof.
  unfold main. rewrite outcome_bind.
  match goal with
  | |- context [match ?o with inl _ => _ | inr _ => _ end] =>
      destruct o as [e|st] eqn:Hsplit
  end.
  - intros [= ->]. unfold splitArgs in Hsplit.
    destruct osArgs as [|arg0 tail]; [cbv in Hsplit; simplify_eq; by split; [|left]|].
    destruct (String.eqb_spec (Base arg0) AppNativeName) as [Hexe|Hexe]; [done|].
    cbn [negb] in Hsplit.
    apply scanArgs_panic in Hsplit as (-> & pre & tok & post & -> & Htok & Hpre & Hlook).
    split; [done|]. right. exists arg0, pre, tok.
    rewrite (lookup_past_pre arg0 pre (tok :: post) 1) in Hlook.
    destruct post; [|done]. done.
  - rewrite HandleExitCoder_outcome. intros Hpanic%Action_panic.
    by destruct (splitArgs_command _ _ _ _ Hsplit).
Qed.

Lemma main_panics_on_trailing_config :
  exists arg0 pre tok,
    ["xds-exec"; "--id"; "p1"; "--config"] = arg0 :: pre ++ [tok]
    /\ Base arg0 <> AppNativeName
    /\ isConfigToken tok = true
    /\ ("--" ∉ pre).
Proof.
  destruct (main_panics_only quotePlain true noFiles ["xds-exec"; "--id"; "p1"; "--config"]
              ∅ (idFlag "p1") agent1 "index out of range" eq_refl) as [_ [H|H]].
  - discriminate H.
  - exact H.
Defined.

(** ** Exit codes and the order of the calls *)

(** X14.  An exit code other than 1 has one of two origins: code 0 of
    the listing asked for with [--list] (line 302-305), in a run that
    posts no request; or the code of the first terminal signal, in a
    run that posted its request without error, the message being that
    signal's error text (lines 451-462).  Every other way out of the
    action has code 1. *)
Theorem exit_code_origin (Quote : string -> string) (v : Vars) (a : Agent)
    (msg : string) (c : Z) :
  outcome (Action Quote v a) = inl (ExitError msg c) ->
  c <> 1%Z ->
  (c = 0%Z /\ listProject v = true
   /\ forall url body, ~ In (Post url body) (effects (Action Quote v a)))
  \/ (exists body r,
        In (Post "/exec" body) (effects (Action Quote v a))
        /\ post a body = None
        /\ firstSignal (events a) = Some r
        /\ msg = errText (error r) /\ c = code r).
Proof.
  unfold Action. act_unfold.
  repeat (case_match; simplify_eq; simpl in * ); intros Hout Hc; simplify_eq; try done.
  all: try (left; split; [done|]; split; [by apply negb_false_iff|];
            intros url body Hin; by repeat (destruct Hin as [Hin|Hin]; simplify_eq)).
  right.
  match goal with
  | H : returned (waitExit _ _ _) = Some _ |- _ =>
      apply waitExit_returned in H as (r & Hf & Hx); [|done..]
  end.
  injection Hx as -> ->. eexists _, r. split; [do 4 right; by left|]. by repeat split.
Qed.

Lemma exit_code_of_remote_command :
  exists body r,
    In (Post "/exec" body) (effects (Action quotePlain (varsOf "p1" false ["make"]) agent1))
    /\ post agent1 body = None
    /\ firstSignal (events agent1) = Some r
    /\ EmptyString = errText (error r) /\ 0%Z = code r.
Proof.
  destruct (exit_code_origin quotePlain (varsOf "p1" false ["make"]) agent1 EmptyString 0
              eq_refl ltac:(done)) as [(_ & Hlist & _)|H].
  - discriminate Hlist.
  - exact H.
Defined.

Lemma filter_writes (l : list Effect) : Forall isWrite l -> List.filter isCall l = [].
Proof. induction 1 as [|e l He _ IH]; [done|]. by destruct e. Qed.

(** X15.  The order of the calls the action makes (lines 273-447),
    writes to the standard streams left aside: it first creates the
    HTTP client, then gets [/version], then [/projects]; after that it
    either gets [/servers/0/sdks], in the help branch, and makes no
    other call, or creates the socket client and then posts one request
    to [/exec], its last call.  The calls of a run are an initial part
    of one of these two sequences. *)
Theorem call_order (Quote : string -> string) (v : Vars) (a : Agent) :
  List.filter isCall (effects (Action Quote v a))
    `prefix_of` [NewHTTPClient (baseURLOf (uri v)); Get "/version"; Get "/projects";
                 Get "/servers/0/sdks"]
  \/ List.filter isCall (effects (Action Quote v a))
     = [NewHTTPClient (baseURLOf (uri v)); Get "/version"; Get "/projects";
        NewIOClient (baseURLOf (uri v)) (clientID a)]
  \/ exists body,
       List.filter isCall (effects (Action Quote v a))
       = [NewHTTPClient (baseURLOf (uri v)); Get "/version"; Get "/projects";
          NewIOClient (baseURLOf (uri v)) (clientID a); Post "/exec" body].
Proof.
  unfold Action. act_unfold.
  repeat (case_match; simplify_eq; simpl in * ).
  all: try (left; by eexists).
  all: try (right; by left).
  all: right; right; eexists; try reflexivity.
  rewrite filter_writes; [done|]. apply waitExit_writes. constructor.
Qed.

(** ** The project of the request *)

Lemma findProject_first pre f post id :
  ProjectConfig.ID f = id -> Forall (fun g => ProjectConfig.ID g <> id) pre ->
  findProject (pre ++ f :: post) id = Some f.
Proof.
  intros Hf Hpre. unfold findProject.
  induction Hpre as [|g pre Hg%String.eqb_neq _ IH]; simpl.
  - apply String.eqb_eq in Hf. by rewrite Hf.
  - by rewrite Hg.
Qed.

Lemma findProject_none projects id :
  Forall (fun g => ProjectConfig.ID g <> id) projects -> findProject projects id = None.
Proof.
  unfold findProject.
  induction 1 as [|g l Hg%String.eqb_neq _ IH]; simpl; [done|]. by rewrite Hg.
Qed.

(** X16.  The project of lines 400-406 is the first listed project with
    the given ID.  With no relative path given and the working
    directory known, the request carries the path read off the working
    directory with that project's client root, or no path when none can
    be read.  A project ID that no listed project has is not an error:
    the request is posted all the same, with the relative path as it
    was given; so it is when [os.Getwd] fails. *)
Theorem project_of_request (Quote : string -> string) (v : Vars) (a : Agent)
    (projects : Payload ProjectConfig.t) (url : string) (body : ExecArgs.t) :
  In (Post url body) (effects (Action Quote v a)) ->
  getProjects a = inr projects ->
  (forall pre f post cwd,
     items projects = pre ++ f :: post ->
     ProjectConfig.ID f = prjID v ->
     Forall (fun g => ProjectConfig.ID g <> prjID v) pre ->
     rPath v = EmptyString -> getwd a = inr cwd ->
     ExecArgs.RPath body
     = match autoRPath cwd (ProjectConfig.ClientPath f) with
       | Some r => r
       | None => EmptyString
       end)
  /\ (Forall (fun g => ProjectConfig.ID g <> prjID v) (items projects) ->
      ExecArgs.RPath body = rPath v)
  /\ (forall err, getwd a = inl err -> ExecArgs.RPath body = rPath v).
Proof.
  intros (_ & _ & _ & projects' & cmd & rest & Hprj & _ & ->)%Action_post_inv Hget.
  assert (projects' = projects) as -> by congruence.
  cbn [ExecArgs.RPath]. split; [|split].
  - intros pre f post cwd -> Hf Hpre Hr Hwd.
    rewrite (findProject_first _ _ _ _ Hf Hpre). unfold setupRPath.
    rewrite Hr, Hwd. simpl. by destruct (autoRPath _ _).
  - intros Hnone. by rewrite (findProject_none _ _ Hnone).
  - intros err Hwd. unfold setupRPath. rewrite Hwd.
    destruct (findProject _ _); [|done]. by destruct (String.eqb _ _).
Qed.

Lemma project_of_request_p1 :
  ExecArgs.RPath
    {| ExecArgs.ID := "p1"; ExecArgs.SdkID := EmptyString; ExecArgs.Cmd := "make";
       ExecArgs.Args := []; ExecArgs.Env := []; ExecArgs.RPath := "src";
       ExecArgs.CmdTimeout := 60 |}
  = match autoRPath "/home/u/proj/src" (ProjectConfig.ClientPath project1) with
    | Some r => r
    | None => EmptyString
    end.
Proof.
  refine (proj1 (project_of_request quotePlain (varsOf "p1" false ["make"]) agent1
                   {| items := [project1]; errMar := None |} "/exec" _ _ eq_refl)
            [] project1 [] "/home/u/proj/src" eq_refl eq_refl _ eq_refl eq_refl).
  - vm_compute. tauto.
  - constructor.
Defined.

(** ** The log level *)

Lemma bind_inr {A B} (m : Act A) (f : A -> Act B) t x :
  m = (t, inr x) -> m ≫= f = (t ++ (f x).1, (f x).2).
Proof. intros ->. unfold mbind, act_bind. by destruct (f x). Qed.

Lemma sourceConfig_silent fs osArgs idx st st' :
  outcome (sourceConfig fs osArgs idx st) = inr st' ->
  sourceConfig fs osArgs idx st = ([], inr st').
Proof.
  destruct st as [v e]. unfold sourceConfig, exitError. act_unfold.
  repeat case_match; simpl; intros; by simplify_eq.
Qed.

(** A scan that ends has written nothing. *)
Lemma scanArgs_silent fs osArgs : forall rest idx st st',
  outcome (scanArgs fs osArgs idx rest st) = inr st' ->
  scanArgs fs osArgs idx rest st = ([], inr st').
Proof.
  induction rest as [|x rest IH]; intros idx st st'; cbn [scanArgs].
  - by intros [= <-].
  - rewrite outcome_bind.
    match goal with
    | |- context [match outcome ?m with _ => _ end] =>
        destruct (outcome m) as [e|st1] eqn:E1; [done|];
        assert (m = ([], inr st1)) as ->
    end.
    { destruct (_ || _); [by apply sourceConfig_silent|]. cbv in E1. by simplify_eq. }
    rewrite (bind_inr _ _ [] st1 eq_refl). simpl.
    destruct (String.eqb x "--").
    + by intros [= <-].
    + intros Hrun. by rewrite (IH _ _ _ Hrun).
Qed.

Lemma splitArgs_silent fs osArgs environ st :
  outcome (splitArgs fs osArgs environ) = inr st ->
  splitArgs fs osArgs environ = ([], inr st).
Proof.
  unfold splitArgs. destruct osArgs as [|arg0 tail]; [done|].
  destruct (negb _); [apply scanArgs_silent|]. by intros [= <-].
Qed.

(** X17.  A log level that [logrus.ParseLevel] refuses (lines 250-253),
    the level being ASCII text: once the split has ended and the
    library runs the action on the arguments it is handed (no usage
    error, no help or version flag, no help command), [main] calls no
    agent, writes [Invalid log level : "<level>"] followed by two
    newlines to the standard error stream, and exits with code 1.  The
    level is the value of [--log], else that of [XDS_LOGLEVEL], else
    [error]. *)
Theorem invalid_log_level (Quote : string -> string) (emptyIsSet : bool) (fs : FileSys)
    (osArgs : list string) (environ : gmap string string) (cl : CmdLine) (a : Agent)
    (st : Scan) :
  outcome (splitArgs fs osArgs environ) = inr st ->
  readLine (args st.1) st.2 = Some cl ->
  isASCII (applyString emptyIsSet flag_log st.2 (opt_log cl)) = true ->
  ParseLevel (applyString emptyIsSet flag_log st.2 (opt_log cl)) = false ->
  main Quote emptyIsSet fs osArgs environ cl a
  = ([Stderr ("Invalid log level : " +:+ dq
              +:+ applyString emptyIsSet flag_log st.2 (opt_log cl) +:+ dq +:+ nl +:+ nl)],
     inl (ExitError ("Invalid log level : " +:+ dq
                     +:+ applyString emptyIsSet flag_log st.2 (opt_log cl) +:+ dq +:+ nl)
            1)).
Proof.
  intros Hsplit%splitArgs_silent _ _ Hlvl. unfold main.
  rewrite (bind_inr _ _ [] st Hsplit). unfold Action.
  change (logLevel (parseFlags emptyIsSet cl st.2 st.1))
    with (applyString emptyIsSet flag_log st.2 (opt_log cl)).
  rewrite Hlvl. cbn [app]. unfold HandleExitCoder. act_unfold. cbn [fst snd app].
  rewrite !cat_cons, cat_nil, app_empty_r, !app_cons, app_empty_l.
  cbn [String.eqb Ascii.eqb Bool.eqb].
  by rewrite ?app_cons, ?app_empty_l, ?app_assoc_s.
Qed.

Lemma invalid_log_level_of_bogus :
  main quotePlain true noFiles ["xds-exec"; "--log"; "bogus"; "--"; "make"] ∅
    (logFlag "bogus") agent1
  = ([Stderr ("Invalid log level : " +:+ dq +:+ "bogus" +:+ dq +:+ nl +:+ nl)],
     inl (ExitError ("Invalid log level : " +:+ dq +:+ "bogus" +:+ dq +:+ nl) 1)).
Proof.
  exact (invalid_log_level quotePlain true noFiles ["xds-exec"; "--log"; "bogus"; "--"; "make"]
           ∅ (logFlag "bogus") agent1 _ eq_refl eq_refl eq_refl eq_refl).
Defined.
